(** * discord-color-bot: the role-creation queue, the dropdown pages and the
      select-menu handler of [bot.js]

    The development embeds three pieces of [src/bot.js] (and of its earlier
    revision, which differs in logging, in the shape of the argument object
    handed to [guild.roles.create] and in where the handler looks up the
    name of the selected role):

    - [chunkArray] and the page construction of the [dropdown] sub-command;
    - [createRoleQueueConcurrent]: [concurrency] async workers draining one
      shared queue.  JavaScript runs each worker without interruption from
      one [await] to the next, so a worker is a small program counter naming
      the [await] it is suspended at, and the event loop is a labelled
      transition system whose labels say which suspended worker is resumed
      and with what;
    - the [interactionCreate] handler that swaps a member's colour role. *)

From Stdlib Require Import ZArith Lia Ascii String.
From stdpp Require Import base list strings gmap pretty.

#[local] Set Warnings "-clear-no-such-hyp".

Local Open Scope string_scope.
Local Open Scope list_scope.
Local Open Scope nat_scope.

(* ===================================================================== *)
(** ** Data *)
(* ===================================================================== *)

(** One entry of [roles.json].  [createRoleQueueConcurrent] destructures
    [name] and [color]; the dropdown also reads the optional [emoji]. *)
Record RoleData := mkRoleData {
  name  : string;
  color : string;
  emoji : option string
}.

(** A discord.js [Role] handle, as far as the bot reads it. *)
Record Role := mkRole {
  role_id   : string;
  role_name : string
}.

(** The guild: [guild.roles.cache], a Collection in insertion order.  The bot
    only reads it ([find], [get]); it is held fixed while a call runs, the
    read-only snapshot of the specification. *)
Record Guild := mkGuild {
  roles_cache : list Role
}.

(** [guild.roles.cache.find((r) => r.name === name)]: first match or
    [undefined]. *)
Definition cache_find (g : Guild) (n : string) : option Role :=
  List.find (fun r => bool_decide (role_name r = n)) (roles_cache g).

(** [guild.roles.cache.get(id)]. *)
Definition cache_get (g : Guild) (i : string) : option Role :=
  List.find (fun r => bool_decide (role_id r = i)) (roles_cache g).

(* ===================================================================== *)
(** ** [chunkArray] *)
(* ===================================================================== *)

Section Chunk.
Context {A : Type}.

(** [arr.slice(b, e)] for non-negative integer bounds: both are clamped to
    the length, and the result is empty when [e <= b]. *)
Definition slice (arr : list A) (b e : nat) : list A :=
  drop b (take e arr).

(** [Math.ceil(n / d)] for [d > 0]. *)
Definition ceil_div (n d : nat) : nat :=
  if (n mod d =? 0)%nat then (n / d)%nat else S (n / d).

(** [chunkArray(arr, size)] for a non-negative integer [size].  With
    [size = 0] the quotient is [NaN] for an empty array (length 0, so [[]])
    and [Infinity] otherwise, for which [Array.from] raises a RangeError:
    [None]. *)
Definition chunkArray (arr : list A) (size : nat) : option (list (list A)) :=
  match size with
  | O => match arr with [] => Some [] | _ :: _ => None end
  | S _ =>
      Some (List.map (fun i => slice arr (i * size) (i * size + size))
                     (seq 0 (ceil_div (length arr) size)))
  end.
End Chunk.

(* ===================================================================== *)
(** ** The pages of [!epic-roles dropdown] *)
(* ===================================================================== *)

(** An element of [enrichedRoles]. *)
Record Enriched := mkEnriched {
  e_role  : Role;
  e_emoji : option string;
  e_hex   : string
}.

(** One option of a [StringSelectMenuBuilder]. *)
Record MenuOption := mkMenuOption {
  opt_label       : string;
  opt_value       : string;
  opt_emoji       : option string;
  opt_description : string
}.

(** [x || null] / [x || undefined] on an optional string: the empty string
    is falsy. *)
Definition truthy_string (x : option string) : option string :=
  match x with
  | Some "" => None
  | other => other
  end.

(** [rolesData.map(...).filter((r) => r.role)]. *)
Definition enrichedRoles (g : Guild) (rolesData : list RoleData) : list Enriched :=
  omap (fun data =>
          match cache_find g (name data) with
          | Some r => Some (mkEnriched r (truthy_string (emoji data)) (color data))
          | None => None
          end) rolesData.

Definition menu_option (e : Enriched) : MenuOption :=
  mkMenuOption (role_name (e_role e)) (role_id (e_role e))
               (truthy_string (e_emoji e)) (e_hex e).

(** The [options] arrays sent by the loop over [chunks], one per page. *)
Definition dropdown_pages (g : Guild) (rolesData : list RoleData)
  : option (list (list MenuOption)) :=
  chunks ← chunkArray (enrichedRoles g rolesData) 25;
  Some (List.map (List.map menu_option) chunks).

(* ===================================================================== *)
(** ** [parseInt(color.replace("#", ""), 16)] *)
(* ===================================================================== *)

(** Strings are sequences of 8-bit characters here; what follows is the
    ECMAScript algorithm on characters below U+0080. *)

(** [s.replace("#", "")]: the first ["#"] is dropped. *)
Fixpoint replace_hash (s : string) : string :=
  match s with
  | EmptyString => EmptyString
  | String c s' => if Ascii.eqb c "#"%char then s' else String c (replace_hash s')
  end.

Definition is_js_space (c : ascii) : bool :=
  let n := nat_of_ascii c in
  ((9 <=? n) && (n <=? 13) || (n =? 32))%nat.

Fixpoint trim_start (s : string) : string :=
  match s with
  | String c s' => if is_js_space c then trim_start s' else s
  | EmptyString => EmptyString
  end.

Definition hex_digit (c : ascii) : option Z :=
  let n := Z.of_nat (nat_of_ascii c) in
  if ((48 <=? n) && (n <=? 57))%Z then Some (n - 48)%Z
  else if ((65 <=? n) && (n <=? 70))%Z then Some (n - 55)%Z
  else if ((97 <=? n) && (n <=? 102))%Z then Some (n - 87)%Z
  else None.

(** Longest prefix of hexadecimal digits, most significant first;
    [acc = None] as long as no digit was read. *)
Fixpoint hex_prefix (s : string) (acc : option Z) : option Z :=
  match s with
  | EmptyString => acc
  | String c s' =>
      match hex_digit c with
      | Some d => hex_prefix s' (Some (16 * default 0 acc + d)%Z)
      | None => acc
      end
  end.

Definition strip_0x (s : string) : string :=
  match s with
  | String "0"%char (String "x"%char s')
  | String "0"%char (String "X"%char s') => s'
  | _ => s
  end.

(** A number as [parseInt] returns one: [NaN], an integer that is a double
    (zero with its sign), or an infinity. *)
Inductive JSNumber :=
| NaN
| Int (z : Z)
| NegZero
| Infinity (negative : bool).

(** The double nearest to a natural number, ties to the even significand
    of 53 bits. *)
Definition round53 (n : Z) : Z :=
  let e := (Z.log2 n - 52)%Z in
  if (e <=? 0)%Z then n
  else
    let q := (n / 2 ^ e)%Z in
    let r := (n mod 2 ^ e)%Z in
    let half := (2 ^ (e - 1))%Z in
    let q' := if (half <? r)%Z || ((r =? half)%Z && Z.odd q) then (q + 1)%Z else q in
    (q' * 2 ^ e)%Z.

(** The Number value of the digits read, with the sign read before them;
    what rounds to [2^1024] is infinite. *)
Definition to_number (negative : bool) (digits : option Z) : JSNumber :=
  match digits with
  | None => NaN
  | Some n =>
      let m := round53 n in
      if (2 ^ 1024 <=? m)%Z then Infinity negative
      else if (m =? 0)%Z then (if negative then NegZero else Int 0)
      else Int (if negative then (- m)%Z else m)
  end.

(** [parseInt(s, 16)]. *)
Definition parseInt16 (s : string) : JSNumber :=
  match trim_start s with
  | String "-"%char s' => to_number true (hex_prefix (strip_0x s') None)
  | String "+"%char s' => to_number false (hex_prefix (strip_0x s') None)
  | s' => to_number false (hex_prefix (strip_0x s') None)
  end.

Definition primaryColor (c : string) : JSNumber := parseInt16 (replace_hash c).

(* ===================================================================== *)
(** ** [createRoleQueueConcurrent]: data *)
(* ===================================================================== *)

(** The argument of [guild.roles.create]: [{ name, color: primaryColor }]
    in [bot.js], [{ name, colors: { primaryColor } }] in the earlier
    revision; the same two values either way. *)
Record CreateArgs := mkCreateArgs {
  arg_name  : string;
  arg_color : JSNumber
}.

Definition create_args (t : RoleData) : CreateArgs :=
  mkCreateArgs (name t) (primaryColor (color t)).

(** What a rejected [create] raises, when the [catch] block can read it:
    [err.code] (when it is a number), [err.message], [err.retryAfter].  An
    absent property is [None].  This is any value but [null] and
    [undefined] whose [message] is absent or a string; an object with the
    code 30010 and any other [message] goes as one without [message], which
    is not read then. *)
Record DiscordError := mkError {
  code       : option Z;
  message    : option string;
  retryAfter : option Z
}.

Inductive CreateResult :=
| Fulfilled (r : Role)
| Rejected (err : DiscordError).

(** The other rejections: on them the test of the [catch] block itself
    raises a TypeError. *)
Inductive Unreadable :=
| Nullish      (* [null] or [undefined]: [err.code] has nothing to read *)
| OddMessage.  (* a code other than 30010 and a [message] that is neither
                  [null], [undefined] nor a string: no [includes] to call *)

#[global] Instance RoleData_eq_dec : EqDecision RoleData.
Proof. solve_decision. Defined.
#[global] Instance Role_eq_dec : EqDecision Role.
Proof. solve_decision. Defined.
#[global] Instance JSNumber_eq_dec : EqDecision JSNumber.
Proof. solve_decision. Defined.
#[global] Instance CreateArgs_eq_dec : EqDecision CreateArgs.
Proof. solve_decision. Defined.
#[global] Instance DiscordError_eq_dec : EqDecision DiscordError.
Proof. solve_decision. Defined.
#[global] Instance CreateResult_eq_dec : EqDecision CreateResult.
Proof. solve_decision. Defined.

(** [hay.includes(needle)]. *)
Fixpoint includes (needle hay : string) : bool :=
  String.prefix needle hay ||
  match hay with
  | EmptyString => false
  | String _ hay' => includes needle hay'
  end.

(** The test of the [catch] block:
    [err.code === 30010 || err.message?.includes("Too Many Requests")]. *)
Definition is_rate_limit (err : DiscordError) : bool :=
  bool_decide (code err = Some 30010%Z) ||
  match message err with
  | Some m => includes "Too Many Requests" m
  | None => false
  end.

(** [err.retryAfter ?? 5000]. *)
Definition waitTime (err : DiscordError) : Z := default 5000%Z (retryAfter err).

(** The pause after a successful creation, [delay(300)]. *)
Definition pace_ms : Z := 300.

(** The two [await delay(...)] sites of the worker. *)
Inductive DelaySite := Pace | Backoff.

#[global] Instance DelaySite_eq_dec : EqDecision DelaySite.
Proof. solve_decision. Defined.

Inductive LogLine :=
| LogCreated (n : string)
| LogRateLimited (n : string) (ms : Z)
| LogFailed (n : string) (err : DiscordError).

(** What a run does, in order.  [w] is the index of the worker in the
    [workers] array; the program does not read it. *)
Inductive Event :=
| EvShift (w : nat) (t : RoleData)
| EvCreate (w : nat) (a : CreateArgs)
| EvSettle (w : nat) (a : CreateArgs) (r : CreateResult)
| EvPush (w : nat) (r : Role)
| EvDelay (w : nat) (site : DelaySite) (ms : Z)
| EvLog (w : nat) (l : LogLine).

(** Where a worker is suspended.  [i] in [AwaitCreate] counts the earlier
    invocations of [create] with the same arguments; the program does not
    read it, a mock of [create] may. *)
Inductive Worker :=
| AwaitCreate (t : RoleData) (i : nat)  (* [await guild.roles.create(...)] *)
| AwaitPace                             (* [await delay(300)], [success = true] *)
| AwaitBackoff (t : RoleData)           (* [await delay(waitTime)], [success = false] *)
| Finished                              (* the worker's promise is fulfilled *)
| Threw (t : RoleData).                 (* the [catch] block raised on [t]: the
                                           worker's promise is rejected *)

(** The locals of one call that the workers share, and the history. *)
Record Frame := mkFrame {
  queue        : list RoleData;
  createdRoles : list Role;
  trace        : list Event
}.

Record State := mkState {
  frame   : Frame;
  workers : list Worker
}.

(** What resumes a suspended worker. *)
Inductive Wake :=
| Settled (r : CreateResult)
| SettledUnreadable (v : Unreadable)
| TimerFired.

(* ===================================================================== *)
(** ** [createRoleQueueConcurrent]: the worker *)
(* ===================================================================== *)

Definition is_create_of (a : CreateArgs) (e : Event) : bool :=
  match e with
  | EvCreate _ a' => bool_decide (a' = a)
  | _ => false
  end.

(** Number of invocations of [create] with arguments [a] so far. *)
Definition invocations (a : CreateArgs) (tr : list Event) : nat :=
  length (List.filter (is_create_of a) tr).

Definition emit (f : Frame) (es : list Event) : Frame :=
  mkFrame (queue f) (createdRoles f) (trace f ++ es).

(** The [try] block up to its [await]: [create] is invoked for [t]. *)
Definition try_create (w : nat) (t : RoleData) (f : Frame) : Frame * Worker :=
  let a := create_args t in
  (emit f [EvCreate w a], AwaitCreate t (invocations a (trace f))).

(** From the head of [while (queue.length > 0)] to the next [await], or to
    the end of the worker.  A task found in the cache is pushed and the loop
    goes on without suspending. *)
Fixpoint while_queue (g : Guild) (w : nat)
    (q : list RoleData) (cr : list Role) (tr : list Event) : Frame * Worker :=
  match q with
  | [] => (mkFrame [] cr tr, Finished)
  | t :: q' =>
      match cache_find g (name t) with
      | Some role =>
          while_queue g w q' (cr ++ [role]) (tr ++ [EvShift w t; EvPush w role])
      | None =>
          try_create w t (mkFrame q' cr (tr ++ [EvShift w t]))
      end
  end.

Definition worker_loop (g : Guild) (w : nat) (f : Frame) : Frame * Worker :=
  while_queue g w (queue f) (createdRoles f) (trace f).

(** One worker runs from where it was suspended to its next [await]. *)
Definition resume_worker (g : Guild) (w : nat) (f : Frame) (pc : Worker) (x : Wake)
  : option (Frame * Worker) :=
  match pc, x with
  | AwaitCreate t i, Settled (Fulfilled role) =>
      Some (mkFrame (queue f) (createdRoles f ++ [role])
              (trace f ++ [EvSettle w (create_args t) (Fulfilled role);
                           EvLog w (LogCreated (name t));
                           EvPush w role;
                           EvDelay w Pace pace_ms]),
            AwaitPace)
  | AwaitCreate t i, Settled (Rejected err) =>
      if is_rate_limit err then
        Some (emit f [EvSettle w (create_args t) (Rejected err);
                      EvLog w (LogRateLimited (name t) (waitTime err));
                      EvDelay w Backoff (waitTime err)],
              AwaitBackoff t)
      else
        Some (worker_loop g w
                (emit f [EvSettle w (create_args t) (Rejected err);
                         EvLog w (LogFailed (name t) err)]))
  | AwaitCreate t i, SettledUnreadable _ => Some (f, Threw t)
  | AwaitPace, TimerFired => Some (worker_loop g w f)
  | AwaitBackoff t, TimerFired => Some (try_create w t f)
  | _, _ => None
  end.

(* ===================================================================== *)
(** ** [createRoleQueueConcurrent]: the call *)
(* ===================================================================== *)

(** [Array(concurrency).fill(null).map(async () => ...)]: the workers are
    started one after the other, each running to its first [await]. *)
Fixpoint spawn (g : Guild) (k : nat) (f : Frame) (ws : list Worker) : State :=
  match k with
  | O => mkState f ws
  | S k' =>
      let '(f', pc) := worker_loop g (length ws) f in
      spawn g k' f' (ws ++ [pc])
  end.

(** The state at [await Promise.all(workers)]. *)
Definition start (g : Guild) (rolesData : list RoleData) (concurrency : nat) : State :=
  spawn g concurrency (mkFrame rolesData [] []) [].

(** The event loop resumes worker [w] with [x]. *)
Definition resume (g : Guild) (s : State) (w : nat) (x : Wake) : option State :=
  pc ← workers s !! w;
  '(f', pc') ← resume_worker g w (frame s) pc x;
  Some (mkState f' (<[w := pc']> (workers s))).

Fixpoint run (g : Guild) (s : State) (sched : list (nat * Wake)) : option State :=
  match sched with
  | [] => Some s
  | (w, x) :: rest => s' ← resume g s w x; run g s' rest
  end.

Definition is_finished (pc : Worker) : bool :=
  match pc with Finished => true | _ => false end.

Definition is_threw (pc : Worker) : bool :=
  match pc with Threw _ => true | _ => false end.

(** [await Promise.all(workers); return createdRoles;]: the call resolves
    when every worker has finished. *)
Definition resolved (s : State) : option (list Role) :=
  if forallb is_finished (workers s) then Some (createdRoles (frame s)) else None.

(** [Promise.all] rejects, and the call with it, as soon as one worker's
    promise does; the other workers go on all the same. *)
Definition rejected (s : State) : bool := existsb is_threw (workers s).

(** A wake-up that is not a rejection the [catch] block cannot read. *)
Definition readable (x : Wake) : bool :=
  match x with SettledUnreadable _ => false | _ => true end.

(** The call against a schedule of the event loop: [None] while pending,
    once it has rejected (or when the schedule resumes a worker that is not
    waiting for that). *)
Definition createRoleQueueConcurrent (g : Guild) (rolesData : list RoleData)
    (concurrency : nat) (sched : list (nat * Wake)) : option (list Role) :=
  s ← run g (start g rolesData concurrency) sched; resolved s.

(** A deterministic stand-in for [guild.roles.create] that tells its
    invocations apart by their arguments only: the outcome of the [i]-th
    invocation (from 0) with arguments [a]. *)
Definition Mock := CreateArgs → nat → CreateResult.

Definition wake_of (m : Mock) (s : State) (w : nat) : option Wake :=
  match workers s !! w with
  | Some (AwaitCreate t i) => Some (Settled (m (create_args t) i))
  | Some AwaitPace | Some (AwaitBackoff _) => Some TimerFired
  | Some Finished | Some (Threw _) | None => None
  end.

(** Against a mock, a schedule only says which worker is resumed next. *)
Fixpoint run_mock (g : Guild) (m : Mock) (s : State) (sched : list nat) : option State :=
  match sched with
  | [] => Some s
  | w :: rest => x ← wake_of m s w; s' ← resume g s w x; run_mock g m s' rest
  end.

Definition createRoleQueueConcurrent_mock (g : Guild) (m : Mock)
    (rolesData : list RoleData) (concurrency : nat) (sched : list nat)
  : option (list Role) :=
  s ← run_mock g m (start g rolesData concurrency) sched; resolved s.

(** A deterministic stand-in of another kind, one that keeps a counter of
    all its invocations: the outcome of the [n]-th invocation overall (from
    0), which had the arguments [a]. *)
Definition CountingMock := CreateArgs → nat → CreateResult.

(** The number, among all invocations, of the last one worker [w] made:
    [n] invocations lie behind, [found] is the number of the last one of
    [w] among them. *)
Fixpoint last_invocation (w : nat) (tr : list Event) (n : nat) (found : option nat)
  : option nat :=
  match tr with
  | [] => found
  | EvCreate w' _ :: tr' =>
      last_invocation w tr' (S n) (if decide (w' = w) then Some n else found)
  | _ :: tr' => last_invocation w tr' n found
  end.

Definition wake_of_counting (m : CountingMock) (s : State) (w : nat) : option Wake :=
  match workers s !! w with
  | Some (AwaitCreate t _) =>
      n ← last_invocation w (trace (frame s)) 0 None;
      Some (Settled (m (create_args t) n))
  | Some AwaitPace | Some (AwaitBackoff _) => Some TimerFired
  | Some Finished | Some (Threw _) | None => None
  end.

Fixpoint run_counting (g : Guild) (m : CountingMock) (s : State) (sched : list nat)
  : option State :=
  match sched with
  | [] => Some s
  | w :: rest =>
      x ← wake_of_counting m s w; s' ← resume g s w x; run_counting g m s' rest
  end.

Definition createRoleQueueConcurrent_counting (g : Guild) (m : CountingMock)
    (rolesData : list RoleData) (concurrency : nat) (sched : list nat)
  : option (list Role) :=
  s ← run_counting g m (start g rolesData concurrency) sched; resolved s.

(* ===================================================================== *)
(** ** The [interactionCreate] handler *)
(* ===================================================================== *)

(** What the handler reads of the interaction itself.  The roles of
    [interaction.member] are passed along as [held], the set of role ids in
    [member.roles.cache]; [member.roles.remove] and [member.roles.add] act
    on it. *)
Record Interaction := mkInteraction {
  isStringSelectMenu : bool;
  customId           : string;
  values             : list string
}.

(** How a run of the handler ends. *)
Inductive Completion :=
| NotHandled                       (* one of the two early [return]s *)
| RepliedGiven (roleName : string) (* "You now have the ... role!" *)
| RepliedRemoved                   (* "Removed your color role." *)
| Thrown.                          (* a rejected request or reply, or a
                                      TypeError *)

(** [rolesData.map((r) => cache.find(...)?.id).filter(Boolean)]: the ids of
    the roles found, an empty id being falsy. *)
Definition colorRoleIds (g : Guild) (rolesData : list RoleData) : list string :=
  omap (fun r =>
          match cache_find g (name r) with
          | Some role => if bool_decide (role_id role = "") then None
                         else Some (role_id role)
          | None => None
          end) rolesData.

(** [guild.channels.cache.get(ROLE_LOG_CHANNEL)], for [bot.js] to call
    [logChannel?.send(...)] on when [ROLE_LOG_CHANNEL] is set. *)
Inductive LogChannel :=
| NoLogChannel    (* [ROLE_LOG_CHANNEL] is not set, or the cache has no such
                     channel: nothing is called *)
| LogSends        (* a channel with [send]; the promise it returns is not
                     awaited, so its fate does not reach the handler *)
| LogCannotSend.  (* a channel without [send], a category say: the call
                     raises a TypeError *)

Definition log_throws (logChannel : LogChannel) : bool :=
  match logChannel with LogCannotSend => true | _ => false end.

Section Handler.
(** Whether Discord accepts the bot's request to change role [i] of the
    member; a refused request rejects the awaited promise. *)
Variable accepts : string → bool.

(** Whether the promise of [interaction.reply] is fulfilled; the handler
    returns it, and throws with it. *)
Variable replies : bool.

(** [for (const roleId of colorRoleIds)
       if (member.roles.cache.has(roleId)) await member.roles.remove(roleId);]
    The result is the member's roles and whether the loop ran through. *)
Fixpoint remove_existing (ids : list string) (held : gset string)
  : gset string * bool :=
  match ids with
  | [] => (held, true)
  | roleId :: rest =>
      if bool_decide (roleId ∈ held) then
        if accepts roleId then remove_existing rest (held ∖ {[roleId]})
        else (held, false)
      else remove_existing rest held
  end.

(** [return interaction.reply(...)]. *)
Definition reply (held : gset string) (c : Completion) : gset string * Completion :=
  if replies then (held, c) else (held, Thrown).

(** [if (ROLE_LOG_CHANNEL) { ...; logChannel?.send(...) }] and the reply. *)
Definition log_and_reply (logChannel : LogChannel) (held : gset string)
    (c : Completion) : gset string * Completion :=
  if log_throws logChannel then (held, Thrown) else reply held c.

(** The handler of [bot.js]: the role name is looked up before the role
    is added; the change is sent to the log channel before the reply. *)
Definition interactionCreate (logChannel : LogChannel) (g : Guild)
    (rolesData : list RoleData) (i : Interaction) (held : gset string)
  : gset string * Completion :=
  if negb (isStringSelectMenu i) then (held, NotHandled)
  else if negb (String.prefix "colorRoles_" (customId i)) then (held, NotHandled)
  else
    match remove_existing (colorRoleIds g rolesData) held with
    | (held1, false) => (held1, Thrown)
    | (held1, true) =>
        match values i with
        | newRoleId :: _ =>
            match cache_get g newRoleId with
            | None => (held1, Thrown)
            | Some role =>
                if accepts newRoleId
                then log_and_reply logChannel (held1 ∪ {[newRoleId]})
                       (RepliedGiven (role_name role))
                else (held1, Thrown)
            end
        | [] => log_and_reply logChannel held1 RepliedRemoved
        end
    end.

(** The handler of the earlier revision: the role is added first and its
    name is looked up while the reply is built; there is no log channel. *)
Definition interactionCreate_rev0 (g : Guild) (rolesData : list RoleData)
    (i : Interaction) (held : gset string) : gset string * Completion :=
  if negb (isStringSelectMenu i) then (held, NotHandled)
  else if negb (String.prefix "colorRoles_" (customId i)) then (held, NotHandled)
  else
    match remove_existing (colorRoleIds g rolesData) held with
    | (held1, false) => (held1, Thrown)
    | (held1, true) =>
        match values i with
        | newRoleId :: _ =>
            if accepts newRoleId then
              match cache_get g newRoleId with
              | None => (held1 ∪ {[newRoleId]}, Thrown)
              | Some role => reply (held1 ∪ {[newRoleId]}) (RepliedGiven (role_name role))
              end
            else (held1, Thrown)
        | [] => reply held1 RepliedRemoved
        end
    end.
End Handler.





(* ===================================================================== *)
(** ** Reading a history *)
(* ===================================================================== *)

Definition event_worker (e : Event) : nat :=
  match e with
  | EvShift w _ | EvCreate w _ | EvSettle w _ _
  | EvPush w _ | EvDelay w _ _ | EvLog w _ => w
  end.

(** The events of worker [w]. *)
Definition by_worker (w : nat) (tr : list Event) : list Event :=
  List.filter (λ e, bool_decide (event_worker e = w)) tr.

(** The tasks taken off the queue, in order. *)
Definition shifted (tr : list Event) : list RoleData :=
  omap (λ e, match e with EvShift _ t => Some t | _ => None end) tr.

(** The roles pushed on [createdRoles], in order. *)
Definition pushed (tr : list Event) : list Role :=
  omap (λ e, match e with EvPush _ r => Some r | _ => None end) tr.

(** The arguments [create] was invoked with, in order. *)
Definition invoked (tr : list Event) : list CreateArgs :=
  omap (λ e, match e with EvCreate _ a => Some a | _ => None end) tr.

(** The [delay(ms)] calls at one of the two sites, in order. *)
Definition delays (site : DelaySite) (tr : list Event) : list Z :=
  omap (λ e, match e with
             | EvDelay _ site' ms => if decide (site' = site) then Some ms else None
             | _ => None
             end) tr.


(** The wake-ups a schedule delivers to worker [w], in order. *)
Definition wakes_for (w : nat) (sched : list (nat * Wake)) : list Wake :=
  omap (λ '(w', x), if decide (w' = w) then Some x else None) sched.

(** What a worker leaves in the history for one rate-limited invocation:
    the rejection, the log line, the sleep and the next invocation. *)
Definition retry_events (w : nat) (t : RoleData) (err : DiscordError) : list Event :=
  [EvSettle w (create_args t) (Rejected err);
   EvLog w (LogRateLimited (name t) (waitTime err));
   EvDelay w Backoff (waitTime err);
   EvCreate w (create_args t)].

(** What it leaves for a fulfilled one. *)
Definition created_events (w : nat) (t : RoleData) (role : Role) : list Event :=
  [EvSettle w (create_args t) (Fulfilled role);
   EvLog w (LogCreated (name t));
   EvPush w role;
   EvDelay w Pace pace_ms].

(** What it leaves for one that failed for good. *)
Definition failed_events (w : nat) (t : RoleData) (err : DiscordError) : list Event :=
  [EvSettle w (create_args t) (Rejected err);
   EvLog w (LogFailed (name t) err)].

(** Three kinds of outcome of [create]. *)
Definition is_ok (r : CreateResult) : bool :=
  match r with Fulfilled _ => true | Rejected _ => false end.
Definition is_rl (r : CreateResult) : bool :=
  match r with Fulfilled _ => false | Rejected err => is_rate_limit err end.
Definition is_final (r : CreateResult) : bool := negb (is_rl r).
Definition is_failure (r : CreateResult) : bool := negb (is_ok r) && negb (is_rl r).

(** Counting the events that satisfy a test. *)
Definition cnt (P : Event → bool) (tr : list Event) : nat :=
  length (List.filter P tr).

Definition not_cached (g : Guild) (t : RoleData) : bool :=
  match cache_find g (name t) with Some _ => false | None => true end.

(** The roles the cache holds for the tasks of a list, in order. *)
Definition cached_roles (g : Guild) (ts : list RoleData) : list Role :=
  omap (λ t, cache_find g (name t)) ts.

Section Tests.
(** [A] selects the arguments of interest, [R] the outcomes. *)
Variables (g : Guild) (A : CreateArgs → bool) (R : CreateResult → bool).

(** A task that is not in the cache is taken off the queue. *)
Definition is_claim (e : Event) : bool :=
  match e with
  | EvShift _ t => not_cached g t && A (create_args t)
  | _ => false
  end.

Definition is_create (e : Event) : bool :=
  match e with EvCreate _ a => A a | _ => false end.

Definition is_settle (e : Event) : bool :=
  match e with EvSettle _ a r => A a && R r | _ => false end.

(** Workers waiting for [create], and workers waiting to retry. *)
Definition awaiting_create (pc : Worker) : nat :=
  match pc with
  | AwaitCreate t _ => if A (create_args t) then 1 else 0
  | _ => 0
  end.

Definition awaiting_backoff (pc : Worker) : nat :=
  match pc with
  | AwaitBackoff t => if A (create_args t) then 1 else 0
  | _ => 0
  end.

(** Workers whose [catch] block raised. *)
Definition threw_on (pc : Worker) : nat :=
  match pc with
  | Threw t => if A (create_args t) then 1 else 0
  | _ => 0
  end.
End Tests.

Definition any_args : CreateArgs → bool := λ _, true.
Definition same_args (a : CreateArgs) : CreateArgs → bool := λ a', bool_decide (a' = a).
Definition among (U : list CreateArgs) : CreateArgs → bool := λ a, bool_decide (a ∈ U).

Definition is_log_failed (e : Event) : bool :=
  match e with EvLog _ (LogFailed _ _) => true | _ => false end.

(** Sum of a weight over the workers. *)
Definition wsum (wt : Worker → nat) (ws : list Worker) : nat :=
  sum_list_with wt ws.

(** What a worker still owes, in resumptions, if it is never rate limited:
    the settlement and the pause, the pause alone, or the timer, the
    settlement and the pause. *)
Definition owed (pc : Worker) : nat :=
  match pc with
  | AwaitCreate _ _ => 2
  | AwaitPace => 1
  | AwaitBackoff _ => 3
  | Finished | Threw _ => 0
  end.

Definition potential (s : State) : nat :=
  2 * length (queue (frame s)) + wsum owed (workers s).

(** Under a mock, the invocations in flight for [a] whose outcome will
    satisfy [R]. *)
Definition in_flight (m : Mock) (a : CreateArgs)
    (R : CreateResult → bool) (pc : Worker) : nat :=
  match pc with
  | AwaitCreate t i =>
      if bool_decide (create_args t = a) && R (m a i) then 1 else 0
  | _ => 0
  end.

(** The outcomes of the first [n] invocations with [a] that satisfy [R]. *)
Definition outcomes (m : Mock) (a : CreateArgs)
    (R : CreateResult → bool) (n : nat) : nat :=
  length (List.filter R (m a <$> seq 0 n)).

(* ===================================================================== *)
(** ** The run, one effect at a time *)
(* ===================================================================== *)

(** Between two [await]s a worker does several things at once.  The
    relation below does them one by one; a worker that stands at the head of
    [while (queue.length > 0)] is written [AwaitPace], the suspension that
    leads there.  [ok a i r] says which outcome [r] the [i]-th invocation
    with [a] may have, [odd] whether [create] may reject with what the
    [catch] block cannot read. *)
Section Effects.
Variables (g : Guild) (ok : CreateArgs → nat → CreateResult → Prop) (odd : Prop).

Definition set_worker (s : State) (w : nat) (pc : Worker) (f : Frame) : State :=
  mkState f (<[w := pc]> (workers s)).

Inductive effect : State → State → Prop :=
| eff_spawn s :
    effect s (mkState (frame s) (workers s ++ [AwaitPace]))
| eff_skip s w t q r :
    workers s !! w = Some AwaitPace →
    queue (frame s) = t :: q →
    cache_find g (name t) = Some r →
    effect s (mkState (mkFrame q (createdRoles (frame s) ++ [r])
                         (trace (frame s) ++ [EvShift w t; EvPush w r]))
                      (workers s))
| eff_claim s w t q :
    workers s !! w = Some AwaitPace →
    queue (frame s) = t :: q →
    cache_find g (name t) = None →
    effect s (set_worker s w
                (AwaitCreate t (invocations (create_args t) (trace (frame s))))
                (mkFrame q (createdRoles (frame s))
                   (trace (frame s) ++ [EvShift w t; EvCreate w (create_args t)])))
| eff_finish s w :
    workers s !! w = Some AwaitPace →
    queue (frame s) = [] →
    effect s (set_worker s w Finished (frame s))
| eff_fulfilled s w t i role :
    workers s !! w = Some (AwaitCreate t i) →
    ok (create_args t) i (Fulfilled role) →
    effect s (set_worker s w AwaitPace
                (mkFrame (queue (frame s)) (createdRoles (frame s) ++ [role])
                   (trace (frame s) ++
                      [EvSettle w (create_args t) (Fulfilled role);
                       EvLog w (LogCreated (name t));
                       EvPush w role;
                       EvDelay w Pace pace_ms])))
| eff_rate_limited s w t i err :
    workers s !! w = Some (AwaitCreate t i) →
    ok (create_args t) i (Rejected err) →
    is_rate_limit err = true →
    effect s (set_worker s w (AwaitBackoff t)
                (emit (frame s)
                   [EvSettle w (create_args t) (Rejected err);
                    EvLog w (LogRateLimited (name t) (waitTime err));
                    EvDelay w Backoff (waitTime err)]))
| eff_failed s w t i err :
    workers s !! w = Some (AwaitCreate t i) →
    ok (create_args t) i (Rejected err) →
    is_rate_limit err = false →
    effect s (set_worker s w AwaitPace
                (emit (frame s)
                   [EvSettle w (create_args t) (Rejected err);
                    EvLog w (LogFailed (name t) err)]))
| eff_retry s w t :
    workers s !! w = Some (AwaitBackoff t) →
    effect s (set_worker s w
                (AwaitCreate t (invocations (create_args t) (trace (frame s))))
                (emit (frame s) [EvCreate w (create_args t)]))
| eff_threw s w t i :
    workers s !! w = Some (AwaitCreate t i) →
    odd →
    effect s (set_worker s w (Threw t) (frame s)).
End Effects.

(** Any outcome is possible; the outcomes of a mock. *)
Definition any_outcome : CreateArgs → nat → CreateResult → Prop := λ _ _ _, True.
Definition mock_outcome (m : Mock) : CreateArgs → nat → CreateResult → Prop :=
  λ a i r, r = m a i.


(* ===================================================================== *)
(** ** What holds in every state of a run *)
(* ===================================================================== *)

(** A worker that works on a task took it from [rolesData] and did not find
    it in the cache; a worker has finished only on an empty queue. *)
Definition worker_ok (g : Guild) (rolesData q : list RoleData) (pc : Worker) : Prop :=
  match pc with
  | AwaitCreate t _ | AwaitBackoff t => t ∈ rolesData ∧ cache_find g (name t) = None
  | Finished => q = []
  | AwaitPace | Threw _ => True
  end.

(** [create] is only invoked for such a task. *)
Definition event_ok (g : Guild) (rolesData : list RoleData) (e : Event) : Prop :=
  match e with
  | EvCreate _ a | EvSettle _ a _ =>
      ∃ t, t ∈ rolesData ∧ cache_find g (name t) = None ∧ a = create_args t
  | _ => True
  end.

(** The same tests on roles instead of arguments. *)
Section RoleTests.
Variables (g : Guild) (Q : Role → bool).

Definition is_skip (e : Event) : bool :=
  match e with
  | EvShift _ t => match cache_find g (name t) with Some r => Q r | None => false end
  | _ => false
  end.

Definition is_push (e : Event) : bool :=
  match e with EvPush _ r => Q r | _ => false end.

Definition is_fulfilled (e : Event) : bool :=
  match e with EvSettle _ _ (Fulfilled r) => Q r | _ => false end.
End RoleTests.

Definition any_role : Role → bool := λ _, true.
Definition same_role (r : Role) : Role → bool := λ r', bool_decide (r' = r).

Record invariant (g : Guild) (rolesData : list RoleData) (s : State) : Prop := {
  inv_shift :
    shifted (trace (frame s)) ++ queue (frame s) = rolesData;
  inv_push :
    createdRoles (frame s) = pushed (trace (frame s));
  inv_workers :
    Forall (worker_ok g rolesData (queue (frame s))) (workers s);
  inv_events :
    Forall (event_ok g rolesData) (trace (frame s));
  (** invocations: one per claim, one more per rate limit once the backoff
      is over *)
  inv_invoked : ∀ A,
    cnt (is_create A) (trace (frame s)) + wsum (awaiting_backoff A) (workers s)
    = cnt (is_claim g A) (trace (frame s))
      + cnt (is_settle A is_rl) (trace (frame s));
  (** a claimed task is in progress, has met its final outcome, or made
      the [catch] block raise *)
  inv_claimed : ∀ A,
    cnt (is_claim g A) (trace (frame s))
    = wsum (awaiting_create A) (workers s) + wsum (awaiting_backoff A) (workers s)
      + cnt (is_settle A is_final) (trace (frame s))
      + wsum (threw_on A) (workers s);
  (** a role is pushed for a cache hit or for a fulfilled creation *)
  inv_roles : ∀ Q,
    cnt (is_push Q) (trace (frame s))
    = cnt (is_skip g Q) (trace (frame s)) + cnt (is_fulfilled Q) (trace (frame s));
  (** one pause of [pace_ms] per fulfilled creation *)
  inv_pace :
    delays Pace (trace (frame s))
    = replicate (cnt (is_settle any_args is_ok) (trace (frame s))) pace_ms;
  (** one log line per permanent failure *)
  inv_failed :
    cnt is_log_failed (trace (frame s))
    = cnt (is_settle any_args is_failure) (trace (frame s))
}.

(** Under a mock: the outcomes received for [a] and those in flight are the
    outcomes of the invocations made. *)
Definition mock_invariant (m : Mock) (s : State) : Prop :=
  ∀ a R,
    cnt (is_settle (same_args a) R) (trace (frame s))
    + wsum (in_flight m a R) (workers s)
    = outcomes m a R (invocations a (trace (frame s))).


(* ===================================================================== *)
(** ** A sample run *)
(* ===================================================================== *)

Module Demo.
Definition red : Role := mkRole "1" "Red".
Definition blue : Role := mkRole "2" "Blue".
Definition pink : Role := mkRole "4" "Pink".

(** A guild that already has the role "Red", and one without roles. *)
Definition guild : Guild := mkGuild [red].
Definition bare : Guild := mkGuild [].

Definition Red : RoleData := mkRoleData "Red" "#ff0000" None.
Definition Blue : RoleData := mkRoleData "Blue" "#0000ff" None.
Definition Green : RoleData := mkRoleData "Green" "#00ff00" None.
Definition Pink : RoleData := mkRoleData "Pink" "#ff69b4" (Some "x").

Definition rolesData : list RoleData := [Red; Blue; Green; Pink].

Definition rate_limited : DiscordError :=
  mkError None (Some "429: Too Many Requests") (Some 1500%Z).
Definition slow_down : DiscordError := mkError (Some 30010%Z) None None.
Definition forbidden : DiscordError :=
  mkError (Some 50013%Z) (Some "Missing Permissions") None.

(** Two workers.  Worker 0 skips "Red" and asks for "Blue", worker 1 asks
    for "Green".  "Blue" is rate limited once, "Green" is refused, worker 1
    goes on with "Pink". *)
Definition schedule : list (nat * Wake) :=
  [ (0, Settled (Rejected rate_limited));
    (1, Settled (Rejected forbidden));
    (0, TimerFired);
    (1, Settled (Fulfilled pink));
    (0, Settled (Fulfilled blue));
    (1, TimerFired);
    (0, TimerFired) ].

Definition final : State :=
  Eval vm_compute in
    default (start guild rolesData 2) (run guild (start guild rolesData 2) schedule).

(** The same tasks without "Red" on the bare guild, nothing going wrong. *)
Definition schedule' : list (nat * Wake) :=
  [ (1, Settled (Fulfilled pink));
    (0, Settled (Fulfilled blue));
    (1, TimerFired);
    (1, Settled (Fulfilled (mkRole "3" "Green")));
    (0, TimerFired);
    (1, TimerFired) ].

Definition final' : State :=
  Eval vm_compute in
    default (start bare [Blue; Pink; Green] 2)
            (run bare (start bare [Blue; Pink; Green] 2) schedule').

(** A mock that rate limits the first invocation for each role, refuses
    "Green" and creates the others. *)
Definition mock : Mock := λ a i,
  match i with
  | 0 => Rejected slow_down
  | _ => if bool_decide (arg_name a = "Green") then Rejected forbidden
         else Fulfilled (mkRole (arg_name a) (arg_name a))
  end.

(** A mock that always rate limits. *)
Definition busy : Mock := λ _ _, Rejected slow_down.

(** A mock that counts its invocations: it rate limits the first one,
    refuses the second if it is for "Green", and creates otherwise. *)
Definition counting : CountingMock := λ a n,
  match n with
  | 0 => Rejected slow_down
  | 1 => if bool_decide (arg_name a = "Green") then Rejected forbidden
         else Fulfilled (mkRole (arg_name a) (arg_name a))
  | _ => Fulfilled (mkRole (arg_name a) (arg_name a))
  end.

(** The sample run after five resumptions: "Blue" was rate limited once
    and has just been created. *)
Definition midway : State :=
  Eval vm_compute in
    default (start guild rolesData 2)
            (run guild (start guild rolesData 2)
               (take 5 schedule)).

(** The sample run after its first resumption. *)
Definition early : State :=
  Eval vm_compute in
    default (start guild rolesData 2)
            (run guild (start guild rolesData 2)
               (take 1 schedule)).


(** Another run of the two workers: "Blue" is rate limited twice, first
    without a suggested wait, then with one, while "Green" is refused. *)
Definition retries : list (nat * Wake) :=
  [ (0, Settled (Rejected slow_down));
    (0, TimerFired);
    (0, Settled (Rejected rate_limited));
    (1, Settled (Rejected forbidden));
    (0, TimerFired);
    (0, Settled (Fulfilled blue)) ].

Definition retried : State :=
  Eval vm_compute in
    default (start guild rolesData 2) (run guild (start guild rolesData 2) retries).
End Demo.





(* ===================================================================== *)
(** ** The [messageCreate] handler: reading the command *)
(* ===================================================================== *)

(** [s.split(" ")]: the pieces between the spaces, empty pieces included;
    the empty string gives one empty piece. *)
Fixpoint split_space (s : string) : list string :=
  match s with
  | EmptyString => [EmptyString]
  | String c s' =>
      if Ascii.eqb c " "%char then EmptyString :: split_space s'
      else match split_space s' with
           | piece :: rest => String c piece :: rest
           | [] => [String c EmptyString]
           end
  end.

(** [pieces.join(" ")]. *)
Fixpoint join_space (pieces : list string) : string :=
  match pieces with
  | [] => EmptyString
  | [piece] => piece
  | piece :: rest => piece +:+ String " "%char (join_space rest)
  end.

(** What the handler does with a message, before any sub-command runs. *)
Inductive Dispatch :=
| Ignored                                   (* not an [!epic-roles] message *)
| Denied                                    (* "You need administrator permissions" *)
| RunAdd
| RunRemove
| RunDropdown (channelId : option string)   (* [args[1]] *)
| RunNothing.                               (* no known sub-command *)

(** The guards and the three [if (subCommand === ...)] of the handler;
    [admin] is [message.member.permissions.has(Administrator)]. *)
Definition dispatch (content : string) (admin : bool) : Dispatch :=
  if negb (String.prefix "!epic-roles" content) then Ignored
  else if negb admin then Denied
  else
    let args := drop 1 (split_space content) in
    match head args with
    | Some subCommand =>
        if bool_decide (subCommand = "add") then RunAdd
        else if bool_decide (subCommand = "remove") then RunRemove
        else if bool_decide (subCommand = "dropdown") then RunDropdown (args !! 1)
        else RunNothing
    | None => RunNothing
    end.

(* ===================================================================== *)
(** ** [!epic-roles remove] *)
(* ===================================================================== *)

Inductive RemoveReply :=
| RemovedCount (n : nat)   (* "Removed **n** roles" *)
| NothingRemoved.          (* "No matching roles were found to remove." *)

Section Remove.
(** The cache once [await role.delete().catch(() => null)] is over, whether
    the deletion went through or not: that is discord.js's business. *)
Variable deleted : Guild → Role → Guild.

(** The loop over [rolesData]: the roles [delete()] was called on, with the
    names pushed on [removedRoles], and the cache at the end. *)
Fixpoint remove_loop (g : Guild) (rolesData : list RoleData)
  : list (string * Role) * Guild :=
  match rolesData with
  | [] => ([], g)
  | t :: rest =>
      match cache_find g (name t) with
      | Some role =>
          let '(done, g') := remove_loop (deleted g role) rest in
          ((name t, role) :: done, g')
      | None => remove_loop g rest
      end
  end.

Definition removedRoles (g : Guild) (rolesData : list RoleData) : list string :=
  fst <$> fst (remove_loop g rolesData).

Definition remove_command (g : Guild) (rolesData : list RoleData) : RemoveReply :=
  match removedRoles g rolesData with
  | [] => NothingRemoved
  | names => RemovedCount (length names)
  end.
End Remove.

(* ===================================================================== *)
(** ** [!epic-roles dropdown <channel-id>] *)
(* ===================================================================== *)

(** One message sent to the target channel: its page number ([i + 1] in the
    content) and its select menu. *)
Record MenuMessage := mkMenuMessage {
  msg_page       : nat;
  menu_customId  : string;
  menu_minValues : nat;
  menu_maxValues : nat;
  menu_options   : list MenuOption
}.

(** The message of the [i]-th chunk; [`colorRoles_${i}`] writes [i] in
    decimal. *)
Definition menu_message (i : nat) (chunk : list Enriched) : MenuMessage :=
  mkMenuMessage (i + 1) ("colorRoles_" +:+ pretty i) 0 1 (menu_option <$> chunk).

(** The messages the loop over [chunks] is to send. *)
Definition dropdown_messages (g : Guild) (rolesData : list RoleData)
  : option (list MenuMessage) :=
  chunks ← chunkArray (enrichedRoles g rolesData) 25;
  Some (imap menu_message chunks).

Inductive DropdownReply :=
| NeedChannelId                      (* "Please provide a channel ID." *)
| InvalidChannel                     (* "Invalid channel ID." *)
| MenusCreated (channelId : string)  (* "Dropdown menus created in <#...>" *)
| DropdownThrown.                    (* the handler threw: a menu was not
                                        built, or a message or the reply
                                        was not taken *)

Section Dropdown.
(** Whether [guild.channels.fetch(c)] gives a channel. *)
Variable fetches : string → bool.

(** Whether discord.js builds the select menu of these options:
    [addOptions] validates them and throws on one it does not take, one
    with an empty description say. *)
Variable builds : list MenuOption → bool.

(** Whether the promise of [targetChannel.send] is fulfilled for this
    message, and whether that of [message.reply] is. *)
Variable sends : MenuMessage → bool.
Variable replies : bool.

(** [for (let i = 0; i < chunks.length; i++) { ...; await targetChannel.send(...) }]:
    the messages sent, and whether the loop ran through. *)
Fixpoint send_menus (msgs : list MenuMessage) : list MenuMessage * bool :=
  match msgs with
  | [] => ([], true)
  | m :: rest =>
      if builds (menu_options m) && sends m then
        let '(sent, ok) := send_menus rest in (m :: sent, ok)
      else ([], false)
  end.

(** [message.reply(...)], awaited or returned. *)
Definition answer (r : DropdownReply) : DropdownReply :=
  if replies then r else DropdownThrown.

(** The sub-command: the messages sent and how it ends. *)
Definition dropdown_command (g : Guild) (rolesData : list RoleData)
    (channelId : option string) : list MenuMessage * DropdownReply :=
  match truthy_string channelId with
  | None => ([], answer NeedChannelId)
  | Some c =>
      if fetches c then
        match dropdown_messages g rolesData with
        | Some msgs =>
            match send_menus msgs with
            | (sent, true) => (sent, answer (MenusCreated c))
            | (sent, false) => (sent, DropdownThrown)
            end
        | None => ([], DropdownThrown)
        end
      else ([], answer InvalidChannel)
  end.
End Dropdown.

(* ===================================================================== *)
(** ** More readings of a history *)
(* ===================================================================== *)

Definition every_result : CreateResult → bool := λ _, true.

(** The sleeps the rate limits received ask for, in order, in the words of
    the spec: a rate limit is an error with the code 30010 or with "Too Many
    Requests" in its message, and it asks for the wait the server suggests,
    for 5000 ms where it suggests none. *)
Definition waits_asked (tr : list Event) : list Z :=
  omap (λ e, match e with
             | EvSettle _ _ (Rejected err) =>
                 if bool_decide (code err = Some 30010%Z)
                    || match message err with
                       | Some m => includes "Too Many Requests" m
                       | None => false
                       end
                 then Some (match retryAfter err with
                            | Some ms => ms
                            | None => 5000%Z
                            end)
                 else None
             | _ => None
             end) tr.

(** The log line of a settlement of [create] for the role named [n]. *)
Definition log_of (n : string) (r : CreateResult) : LogLine :=
  match r with
  | Fulfilled _ => LogCreated n
  | Rejected err =>
      if is_rate_limit err then LogRateLimited n (waitTime err) else LogFailed n err
  end.

Definition logged (tr : list Event) : list LogLine :=
  omap (λ e, match e with EvLog _ l => Some l | _ => None end) tr.

Definition settled_logs (tr : list Event) : list LogLine :=
  omap (λ e, match e with EvSettle _ a r => Some (log_of (arg_name a) r) | _ => None end) tr.

(** A string of hexadecimal digits. *)
Fixpoint all_hex (s : string) : bool :=
  match s with
  | EmptyString => true
  | String c s' => bool_decide (is_Some (hex_digit c)) && all_hex s'
  end.

Fixpoint has_hash (s : string) : bool :=
  match s with
  | EmptyString => false
  | String c s' => Ascii.eqb c "#"%char || has_hash s'
  end.


(** Number of occurrences of a character. *)
Fixpoint count_char (c : ascii) (s : string) : nat :=
  match s with
  | EmptyString => 0
  | String c' s' => (if Ascii.eqb c' c then 1 else 0) + count_char c s'
  end.


(** Every backoff is the one a rate limit asked for, and every log line
    the one of a settlement. *)
Definition accounted (s : State) : Prop :=
  delays Backoff (trace (frame s)) = waits_asked (trace (frame s))
  ∧ logged (trace (frame s)) = settled_logs (trace (frame s)).


(* ===================================================================== *)
(** * Properties *)
(* ===================================================================== *)

(** ** [parseInt] on a few colours *)

Example primaryColor_red : primaryColor "#ff0000" = Int 16711680.
Proof. reflexivity. Qed.

Example primaryColor_nan : primaryColor "#zz" = NaN.
Proof. reflexivity. Qed.

Example primaryColor_0x : primaryColor " -0x1F#" = Int (-31).
Proof. reflexivity. Qed.

(** From [2^53] on the digits are rounded to a double. *)
Example primaryColor_rounds :
  primaryColor "#20000000000001" = Int 9007199254740992
  ∧ primaryColor "#20000000000003" = Int 9007199254740996
  ∧ primaryColor "#ffffffffffffff" = Int (2 ^ 56)
  ∧ primaryColor "-0" = NegZero.
Proof. repeat split; vm_compute; reflexivity. Qed.

(** ** [chunkArray] *)

Section ChunkFacts.
Context {A : Type}.
Implicit Types (arr : list A) (n s : nat).

Lemma ceil_div_covers n s : 0 < s → n ≤ ceil_div n s * s.
Proof.
  intros Hs. unfold ceil_div.
  pose proof (Nat.div_mod_eq n s) as E.
  pose proof (Nat.mod_upper_bound n s ltac:(lia)) as B.
  destruct (Nat.eqb_spec (n mod s) 0); nia.
Qed.

Lemma ceil_div_tight n s : 0 < s → 0 < n → (ceil_div n s - 1) * s < n.
Proof.
  intros Hs Hn. unfold ceil_div.
  pose proof (Nat.div_mod_eq n s) as E.
  destruct (Nat.eqb_spec (n mod s) 0) as [E0|E0].
  - rewrite E0 in E. destruct (n / s) as [|k] eqn:Ek; [lia|]. nia.
  - nia.
Qed.

Lemma ceil_div_0 s : 0 < s → ceil_div 0 s = 0.
Proof.
  intros Hs. unfold ceil_div. rewrite Nat.Div0.mod_0_l, Nat.Div0.div_0_l.
  reflexivity.
Qed.

Lemma slice_length arr b e : length (slice arr b e) = min e (length arr) - b.
Proof. unfold slice. rewrite length_drop, length_take. reflexivity. Qed.

(** The first [n] chunks, glued together, are the first [n * s] elements. *)
Lemma concat_slices arr s n :
  concat (List.map (fun i => slice arr (i * s) (i * s + s)) (seq 0 n))
  = take (n * s) arr.
Proof.
  induction n as [|n IH].
  - reflexivity.
  - rewrite seq_S, List.map_app, concat_app, IH. simpl.
    rewrite app_nil_r. unfold slice.
    replace (s + n * s) with (n * s + s) by lia.
    rewrite <- (take_drop (n * s) (take (n * s + s) arr)) at 2.
    rewrite take_take. do 2 f_equal. lia.
Qed.
End ChunkFacts.

(** C9.  For a chunk size [s > 0], [chunkArray arr s] returns chunks whose
    concatenation is [arr]; every chunk has at most [s] elements and every
    chunk but the last exactly [s]; and every page of the dropdown, built
    from [chunkArray enrichedRoles 25], carries at most 25 options. *)
Theorem chunkArray_partition {A : Type} (arr : list A) (s : nat) :
  0 < s →
  ∃ chunks,
    chunkArray arr s = Some chunks ∧
    concat chunks = arr ∧
    Forall (λ c, length c ≤ s) chunks ∧
    (∀ i c, chunks !! i = Some c → S i < length chunks → length c = s) ∧
    (∀ g rolesData, ∃ pages,
        dropdown_pages g rolesData = Some pages ∧
        Forall (λ options, length options ≤ 25) pages).
Proof.
  assert (Hchunks : ∀ (B : Type) (l : list B) (k : nat), 0 < k →
            ∃ chunks, chunkArray l k = Some chunks ∧ concat chunks = l ∧
              Forall (λ c, length c ≤ k) chunks ∧
              (∀ i c, chunks !! i = Some c → S i < length chunks → length c = k)).
  { intros B l k Hk. destruct k as [|k']; [lia|]. set (k := S k') in *.
    eexists. split; [reflexivity|]. split; [|split].
    - rewrite concat_slices. apply take_ge. by apply ceil_div_covers.
    - apply Forall_forall. intros c Hc. apply list_elem_of_In in Hc.
      apply in_map_iff in Hc as (i & <- & _). rewrite slice_length. lia.
    - intros i c Hi Hlt. rewrite length_map, length_seq in Hlt.
      rewrite list_lookup_fmap in Hi.
      destruct (seq 0 (ceil_div (length l) k) !! i) as [j|] eqn:Ej; [|done].
      apply lookup_seq in Ej as [-> _]. simpl in Hi. injection Hi as <-.
      rewrite slice_length.
      destruct (length l) as [|n] eqn:En.
      { rewrite ceil_div_0 in Hlt; lia. }
      pose proof (ceil_div_tight (S n) k ltac:(lia) ltac:(lia)). nia. }
  intros Hs. destruct (Hchunks A arr s Hs) as (chunks & E & Hcat & Hle & Hfull).
  exists chunks. repeat split; try done.
  intros g rolesData. unfold dropdown_pages.
  destruct (Hchunks _ (enrichedRoles g rolesData) 25 ltac:(lia))
    as (cs & -> & _ & Hle25 & _).
  eexists. split; [reflexivity|].
  apply Forall_forall. intros o Ho. apply list_elem_of_In in Ho.
  apply in_map_iff in Ho as (c & <- & Hc). rewrite length_map.
  rewrite Forall_forall in Hle25. apply Hle25. by apply list_elem_of_In.
Qed.

Lemma chunkArray_partition_witness :
  0 < 2 ∧
  ∃ chunks,
    chunkArray [1; 2; 3; 4; 5] 2 = Some chunks ∧
    concat chunks = [1; 2; 3; 4; 5] ∧
    Forall (λ c, length c ≤ 2) chunks ∧
    (∀ i c, chunks !! i = Some c → S i < length chunks → length c = 2) ∧
    (∀ g rolesData, ∃ pages,
        dropdown_pages g rolesData = Some pages ∧
        Forall (λ options, length options ≤ 25) pages).
Proof. split; [lia | apply (chunkArray_partition [1; 2; 3; 4; 5] 2); lia]. Defined.

(** ** The select-menu handler *)

Section HandlerFacts.
Variables (accepts : string → bool) (replies : bool) (logChannel : LogChannel).

Lemma remove_existing_through ids (held held1 : gset string) :
  remove_existing accepts ids held = (held1, true) →
  held1 = held ∖ list_to_set ids.
Proof.
  revert held. induction ids as [|roleId rest IH]; simpl; intros held E.
  - injection E as <-. set_solver.
  - case_bool_decide as Hin.
    + destruct (accepts roleId); [|done].
      apply IH in E. subst held1. set_solver.
    + apply IH in E. subst held1. set_solver.
Qed.

Lemma remove_existing_between ids (held held1 : gset string) ok :
  remove_existing accepts ids held = (held1, ok) →
  held ∖ list_to_set ids ⊆ held1 ∧ held1 ⊆ held.
Proof.
  revert held. induction ids as [|roleId rest IH]; simpl; intros held E.
  - injection E as <- <-. set_solver.
  - case_bool_decide as Hin.
    + destruct (accepts roleId).
      * apply IH in E. set_solver.
      * injection E as <- <-. set_solver.
    + apply IH in E. set_solver.
Qed.

Lemma remove_existing_accepted ids (held : gset string) :
  (∀ x, x ∈ ids → x ∈ held → accepts x = true) →
  remove_existing accepts ids held = (held ∖ list_to_set ids, true).
Proof.
  revert held. induction ids as [|roleId rest IH]; simpl; intros held Hacc.
  - f_equal. set_solver.
  - case_bool_decide as Hin.
    + rewrite Hacc by (done || by left).
      rewrite IH by (intros x Hx Hh; apply Hacc; [by right|set_solver]).
      f_equal. set_solver.
    + rewrite IH by (intros x Hx Hh; apply Hacc; [by right|done]).
      f_equal. set_solver.
Qed.

End HandlerFacts.


Lemma cache_find_Some g n r :
  cache_find g n = Some r → r ∈ roles_cache g ∧ role_name r = n.
Proof.
  unfold cache_find. intros E. apply find_some in E as [Hin Hn].
  apply bool_decide_eq_true in Hn. by apply list_elem_of_In in Hin.
Qed.








(** ** The queue: counting *)

Lemma cnt_app P tr1 tr2 : cnt P (tr1 ++ tr2) = cnt P tr1 + cnt P tr2.
Proof. unfold cnt. by rewrite List.filter_app, length_app. Qed.

Lemma cnt_ext P Q tr : (∀ e, P e = Q e) → cnt P tr = cnt Q tr.
Proof. intros E. unfold cnt. f_equal. by apply List.filter_ext. Qed.

(** A test that implies one of two others is counted by them. *)
Lemma cnt_le_or P Q1 Q2 tr :
  (∀ e, P e = true → Q1 e = true ∨ Q2 e = true) →
  cnt P tr ≤ cnt Q1 tr + cnt Q2 tr.
Proof.
  intros H. unfold cnt. induction tr as [|e tr IH]; simpl; [lia|].
  specialize (H e).
  destruct (P e), (Q1 e), (Q2 e); simpl; try lia; destruct H; done.
Qed.

Lemma cnt_0 P tr : (∀ e, e ∈ tr → P e = false) → cnt P tr = 0.
Proof.
  intros H. unfold cnt. induction tr as [|e tr IH]; [done|]. simpl.
  rewrite (H e) by set_solver. apply IH. intros; apply H; set_solver.
Qed.

Lemma invocations_cnt a tr : invocations a tr = cnt (is_create (same_args a)) tr.
Proof. reflexivity. Qed.

Lemma wsum_app wt ws pc : wsum wt (ws ++ [pc]) = wsum wt ws + wt pc.
Proof. unfold wsum. rewrite sum_list_with_app. simpl. lia. Qed.

Lemma wsum_insert wt ws w pc pc' :
  ws !! w = Some pc →
  wsum wt (<[w := pc']> ws) + wt pc = wsum wt ws + wt pc'.
Proof.
  intros Hw. unfold wsum.
  rewrite <- (take_drop_middle ws w pc Hw) at 2.
  rewrite insert_take_drop by (by eapply lookup_lt_Some).
  rewrite !sum_list_with_app. simpl. lia.
Qed.

Lemma wsum_finished wt ws :
  forallb is_finished ws = true → wt Finished = 0 → wsum wt ws = 0.
Proof.
  intros Hall H0. unfold wsum. induction ws as [|pc ws IH]; [done|].
  simpl in *. apply andb_prop in Hall as [Hpc Hall].
  destruct pc; try done. rewrite H0. by apply IH.
Qed.

(** ** The queue: a run is a sequence of effects *)

Section Simulation.
Variables (g : Guild) (ok : CreateArgs → nat → CreateResult → Prop) (odd : Prop).

Lemma while_queue_effects w q cr tr ws f' pc' :
  ws !! w = Some AwaitPace →
  while_queue g w q cr tr = (f', pc') →
  rtc (effect g ok odd) (mkState (mkFrame q cr tr) ws) (mkState f' (<[w := pc']> ws)).
Proof.
  intros Hw. revert cr tr. induction q as [|t q IH]; intros cr tr E; simpl in E.
  - injection E as <- <-. apply rtc_once.
    by apply (eff_finish g ok odd (mkState (mkFrame [] cr tr) ws) w).
  - destruct (cache_find g (name t)) as [role|] eqn:Ec.
    + eapply rtc_l; [|by apply IH].
      by apply (eff_skip g ok odd (mkState (mkFrame (t :: q) cr tr) ws) w t q role).
    + unfold try_create, emit in E. simpl in E. injection E as <- <-.
      apply rtc_once.
      pose proof (eff_claim g ok odd (mkState (mkFrame (t :: q) cr tr) ws) w t q
                    Hw eq_refl Ec) as H.
      unfold set_worker in H. simpl in H.
      rewrite !invocations_cnt, cnt_app, Nat.add_0_r, <- app_assoc. exact H.
Qed.

Lemma worker_loop_effects s w f' pc' :
  workers s !! w = Some AwaitPace →
  worker_loop g w (frame s) = (f', pc') →
  rtc (effect g ok odd) s (mkState f' (<[w := pc']> (workers s))).
Proof.
  intros Hw E. destruct s as [[q cr tr] ws]. by apply while_queue_effects.
Qed.

Lemma resume_effects s w x s' :
  resume g s w x = Some s' →
  (∀ t i r, workers s !! w = Some (AwaitCreate t i) → x = Settled r →
            ok (create_args t) i r) →
  (∀ v, x = SettledUnreadable v → odd) →
  rtc (effect g ok odd) s s'.
Proof.
  unfold resume. intros E Hok Hodd.
  destruct (workers s !! w) as [pc|] eqn:Hw; [|done]. simpl in E.
  destruct (resume_worker g w (frame s) pc x) as [[f' pc']|] eqn:Er; [|done].
  simpl in E. injection E as <-.
  destruct pc as [t i| |t| |t], x as [[role|err]|v|]; simpl in Er; try done.
  - injection Er as <- <-. apply rtc_once.
    apply (eff_fulfilled g ok odd s w t i role Hw). by apply Hok.
  - destruct (is_rate_limit err) eqn:Erl.
    + injection Er as <- <-. apply rtc_once.
      apply (eff_rate_limited g ok odd s w t i err Hw); [by apply Hok|done].
    + injection Er as Er. eapply rtc_l.
      { apply (eff_failed g ok odd s w t i err Hw); [by apply Hok|done]. }
      unfold set_worker.
      rewrite <- (list_insert_insert_eq (workers s) w pc' AwaitPace).
      apply (worker_loop_effects
               (mkState (emit (frame s) _) (<[w := AwaitPace]> (workers s))));
        [|done]. simpl.
      apply list_lookup_insert_eq. by eapply lookup_lt_Some.
  - injection Er as <- <-. apply rtc_once.
    apply (eff_threw g ok odd s w t i Hw). by eapply Hodd.
  - injection Er as Er. by apply worker_loop_effects.
  - unfold try_create in Er. injection Er as <- <-. apply rtc_once.
    apply (eff_retry g ok odd s w t Hw).
Qed.

Lemma spawn_effects k f ws :
  rtc (effect g ok odd) (mkState f ws) (spawn g k f ws).
Proof.
  revert f ws. induction k as [|k IH]; intros f ws; simpl; [done|].
  destruct (worker_loop g (length ws) f) as [f' pc'] eqn:E.
  etrans; [|apply IH].
  eapply rtc_l; [apply eff_spawn|]. simpl.
  replace (ws ++ [pc']) with (<[length ws := pc']> (ws ++ [AwaitPace])).
  - apply (worker_loop_effects (mkState f (ws ++ [AwaitPace]))); [|done].
    simpl. by rewrite lookup_app_r, Nat.sub_diag.
  - rewrite insert_app_r_alt, Nat.sub_diag by lia. done.
Qed.

Lemma start_effects rolesData concurrency :
  rtc (effect g ok odd) (mkState (mkFrame rolesData [] []) [])
      (start g rolesData concurrency).
Proof. apply spawn_effects. Qed.
End Simulation.

Lemma run_effects g s sched s' :
  run g s sched = Some s' → rtc (effect g any_outcome True) s s'.
Proof.
  revert s. induction sched as [|[w x] sched IH]; intros s E; simpl in E.
  - by injection E as <-.
  - destruct (resume g s w x) as [s1|] eqn:E1; [|done]. simpl in E.
    etrans; [|by apply IH]. by eapply resume_effects.
Qed.

Lemma run_mock_effects g m s sched s' :
  run_mock g m s sched = Some s' → rtc (effect g (mock_outcome m) False) s s'.
Proof.
  revert s. induction sched as [|w sched IH]; intros s E; simpl in E.
  - by injection E as <-.
  - destruct (wake_of m s w) as [x|] eqn:Ex; [|done]. simpl in E.
    destruct (resume g s w x) as [s1|] eqn:E1; [|done]. simpl in E.
    etrans; [|by apply IH]. eapply resume_effects; [done| |].
    + intros t i r Hw ->. unfold wake_of in Ex. rewrite Hw in Ex.
      unfold mock_outcome. congruence.
    + intros v ->. unfold wake_of in Ex.
      by destruct (workers s !! w) as [[]|].
Qed.

(** ** The queue: the invariant *)

Lemma cnt_nil P : cnt P [] = 0.
Proof. reflexivity. Qed.

Lemma cnt_cons P e tr : cnt P (e :: tr) = (if P e then 1 else 0) + cnt P tr.
Proof. unfold cnt. simpl. by destruct (P e). Qed.

Lemma shifted_app tr1 tr2 : shifted (tr1 ++ tr2) = shifted tr1 ++ shifted tr2.
Proof. apply omap_app. Qed.

Lemma pushed_app tr1 tr2 : pushed (tr1 ++ tr2) = pushed tr1 ++ pushed tr2.
Proof. apply omap_app. Qed.

Lemma delays_app site tr1 tr2 :
  delays site (tr1 ++ tr2) = delays site tr1 ++ delays site tr2.
Proof. apply omap_app. Qed.

Lemma replicate_snoc {A : Type} (n : nat) (x : A) :
  replicate (n + 1) x = replicate n x ++ [x].
Proof. by rewrite replicate_add. Qed.

Lemma outcomes_S m a R n :
  outcomes m a R (S n) = outcomes m a R n + (if R (m a n) then 1 else 0).
Proof.
  unfold outcomes. rewrite seq_S, fmap_app, List.filter_app, length_app. simpl.
  by destruct (R (m a n)).
Qed.

(** Rewrites the counts of a history that grew by a few events. *)
Ltac count_events :=
  unfold set_worker, emit; simpl;
  rewrite ?invocations_cnt, ?cnt_app, ?cnt_cons, ?cnt_nil; simpl.

(** Relates the sums over the workers before and after worker [w] moved. *)
Ltac move_worker Hw :=
  repeat match goal with
  | |- context [wsum ?wt (<[?w := ?pc']> ?ws)] =>
      let H := fresh "Hsum" in
      pose proof (wsum_insert wt ws w _ pc' Hw) as H; simpl in H;
      generalize dependent (wsum wt (<[w := pc']> ws)); intros
  end.

Section Invariant.
Variables (g : Guild) (rolesData : list RoleData).

Lemma invariant_init :
  invariant g rolesData (mkState (mkFrame rolesData [] []) []).
Proof.
  constructor; simpl; done.
Qed.

Lemma worker_ok_shrink q q' pc :
  q ≠ [] → worker_ok g rolesData q pc → worker_ok g rolesData q' pc.
Proof. intros Hq. destruct pc; simpl; try done. Qed.

Lemma effect_counts ok odd s s' A Q :
  effect g ok odd s s' →
  invariant g rolesData s →
  (cnt (is_create A) (trace (frame s')) + wsum (awaiting_backoff A) (workers s')
   = cnt (is_claim g A) (trace (frame s'))
     + cnt (is_settle A is_rl) (trace (frame s')))
  ∧ (cnt (is_claim g A) (trace (frame s'))
     = wsum (awaiting_create A) (workers s')
       + wsum (awaiting_backoff A) (workers s')
       + cnt (is_settle A is_final) (trace (frame s'))
       + wsum (threw_on A) (workers s'))
  ∧ (cnt (is_push Q) (trace (frame s'))
     = cnt (is_skip g Q) (trace (frame s')) + cnt (is_fulfilled Q) (trace (frame s')))
  ∧ (cnt is_log_failed (trace (frame s'))
     = cnt (is_settle any_args is_failure) (trace (frame s'))).
Proof.
  intros Heff [_ _ _ _ Hinv Hcl Hro _ Hfa].
  specialize (Hinv A). specialize (Hcl A). specialize (Hro Q).
  destruct Heff as [s|s w t q r Hw Hq Hc|s w t q Hw Hq Hc|s w Hw Hq
                   |s w t i role Hw _|s w t i err Hw _ Hrl
                   |s w t i err Hw _ Hrl|s w t Hw|s w t i Hw _];
    count_events; unfold not_cached, is_final, is_failure, any_args in *;
    rewrite ?wsum_app, ?Hc; simpl; rewrite ?Hrl; simpl;
    move_worker Hw;
    repeat match goal with
      | |- context [A ?x] => destruct (A x)
      | |- context [Q ?x] => destruct (Q x)
      | H : context [A ?x] |- _ => destruct (A x)
      end;
    simpl in *; lia.
Qed.

Lemma effect_invariant ok odd s s' :
  effect g ok odd s s' → invariant g rolesData s → invariant g rolesData s'.
Proof.
  intros Heff Hinv.
  assert (Hcounts := λ A Q, effect_counts ok odd s s' A Q Heff Hinv).
  destruct Hinv as [Hsh Hpu Hws Hev _ _ _ Hpa _].
  constructor; try (intros X; first [apply (Hcounts X any_role) | apply (Hcounts any_args X)]);
    try apply (Hcounts any_args any_role).
  - (* the queue *)
    destruct Heff; unfold set_worker, emit; simpl; rewrite ?shifted_app; simpl;
      rewrite ?app_nil_r, <- ?app_assoc; simpl; congruence.
  - (* createdRoles *)
    destruct Heff; unfold set_worker, emit; simpl; rewrite ?pushed_app, ?Hpu; simpl;
      rewrite ?app_nil_r; done.
  - (* the workers *)
    assert (Hin : ∀ t q, queue (frame s) = t :: q → t ∈ rolesData).
    { intros t q E. rewrite <- Hsh, E. set_solver. }
    destruct Heff as [s|s w t q r Hw Hq Hc|s w t q Hw Hq Hc|s w Hw Hq
                     |s w t i role Hw _|s w t i err Hw _ Hrl
                     |s w t i err Hw _ Hrl|s w t Hw|s w t i Hw _]; simpl;
      try (pose proof (Forall_lookup_1 _ _ _ _ Hws Hw) as Hpc; simpl in Hpc);
      try apply Forall_insert; simpl; eauto.
    + apply Forall_app; split; [done|]. by repeat constructor.
    + eapply Forall_impl; [exact Hws|]. intros pc.
      apply worker_ok_shrink. by rewrite Hq.
    + eapply Forall_impl; [exact Hws|]. intros pc.
      apply worker_ok_shrink. by rewrite Hq.
  - (* the events *)
    destruct Heff as [s|s w t q r Hw Hq Hc|s w t q Hw Hq Hc|s w Hw Hq
                     |s w t i role Hw _|s w t i err Hw _ Hrl
                     |s w t i err Hw _ Hrl|s w t Hw|s w t i Hw _]; simpl; try done;
      try (pose proof (Forall_lookup_1 _ _ _ _ Hws Hw) as [Hpc1 Hpc2]);
      apply Forall_app; (split; [done|]); repeat constructor; simpl; eauto.
    exists t. split_and!; try done. rewrite <- Hsh, Hq. set_solver.
  - (* the pauses *)
    clear Hcounts.
    destruct Heff; count_events; rewrite ?delays_app, ?Hpa; simpl;
      unfold any_args; simpl; rewrite ?app_nil_r, ?Nat.add_0_r; try done.
    by rewrite replicate_snoc.
Qed.

Lemma effects_invariant ok odd s s' :
  rtc (effect g ok odd) s s' → invariant g rolesData s → invariant g rolesData s'.
Proof. induction 1; eauto using effect_invariant. Qed.

Lemma effect_mock_invariant m s s' :
  effect g (mock_outcome m) False s s' → mock_invariant m s → mock_invariant m s'.
Proof.
  intros Heff Hinv a R. specialize (Hinv a R).
  destruct Heff as [s|s w t q r Hw Hq Hc|s w t q Hw Hq Hc|s w Hw Hq
                   |s w t i role Hw Hok|s w t i err Hw Hok Hrl
                   |s w t i err Hw Hok Hrl|s w t Hw|s w t i Hw []];
    count_events; rewrite ?invocations_cnt in Hinv; rewrite ?wsum_app; simpl;
    unfold same_args in *; move_worker Hw;
    repeat case_bool_decide; subst; simpl in *;
    try (unfold mock_outcome in Hok; rewrite <- ?Hok in * );
    rewrite ?Nat.add_0_r, ?Nat.add_1_r, ?outcomes_S in *;
    repeat match goal with
      | |- context [R ?x] => destruct (R x)
      | H : context [R ?x] |- _ => destruct (R x)
      end; simpl in *; try lia; try congruence.
Qed.
End Invariant.

(** ** The queue: the states of a run *)

Lemma spawn_workers g k f ws : length (workers (spawn g k f ws)) = length ws + k.
Proof.
  revert f ws. induction k as [|k IH]; intros f ws; simpl; [lia|].
  destruct (worker_loop g (length ws) f) as [f' pc']. rewrite IH, length_app.
  simpl. lia.
Qed.

Lemma resume_workers g s w x s' :
  resume g s w x = Some s' → length (workers s') = length (workers s).
Proof.
  unfold resume. intros E.
  destruct (workers s !! w) as [pc|]; [|done]. simpl in E.
  destruct (resume_worker g w (frame s) pc x) as [[f' pc']|]; [|done].
  injection E as <-. simpl. apply length_insert.
Qed.

Lemma run_workers g s sched s' :
  run g s sched = Some s' → length (workers s') = length (workers s).
Proof.
  revert s. induction sched as [|[w x] sched IH]; intros s E; simpl in E.
  - by injection E as <-.
  - destruct (resume g s w x) as [s1|] eqn:E1; [|done]. simpl in E.
    rewrite (IH _ E). by eapply resume_workers.
Qed.

(** A schedule against a mock is a schedule. *)
Lemma run_mock_run g m s sched s' :
  run_mock g m s sched = Some s' →
  ∃ labels, run g s labels = Some s' ∧ length labels = length sched.
Proof.
  revert s. induction sched as [|w sched IH]; intros s E; simpl in E.
  - injection E as <-. by exists [].
  - destruct (wake_of m s w) as [x|] eqn:Ex; [|done]. simpl in E.
    destruct (resume g s w x) as [s1|] eqn:E1; [|done]. simpl in E.
    destruct (IH _ E) as (labels & Hrun & Hlen).
    exists ((w, x) :: labels). simpl. rewrite E1. simpl. split; [done|lia].
Qed.

Section Reachable.
Variables (g : Guild) (rolesData : list RoleData) (concurrency : nat).

Lemma run_invariant sched s :
  run g (start g rolesData concurrency) sched = Some s →
  invariant g rolesData s.
Proof.
  intros E. apply run_effects in E.
  eapply effects_invariant; [exact E|].
  eapply effects_invariant; [apply (start_effects g any_outcome True)|].
  apply invariant_init.
Qed.

Lemma run_mock_invariant m sched s :
  run_mock g m (start g rolesData concurrency) sched = Some s →
  invariant g rolesData s ∧ mock_invariant m s.
Proof.
  intros E. split.
  - destruct (run_mock_run _ _ _ _ _ E) as (labels & Hrun & _).
    by apply (run_invariant labels).
  - assert (Hrtc : rtc (effect g (mock_outcome m) False)
                       (mkState (mkFrame rolesData [] []) []) s).
    { etrans; [apply start_effects|]. by eapply run_mock_effects. }
    assert (H0 : mock_invariant m (mkState (mkFrame rolesData [] []) [])) by done.
    clear E. induction Hrtc; eauto using effect_mock_invariant.
Qed.

Lemma run_concurrency sched s :
  run g (start g rolesData concurrency) sched = Some s →
  length (workers s) = concurrency.
Proof.
  intros E. rewrite (run_workers _ _ _ _ E). unfold start.
  by rewrite spawn_workers.
Qed.

(** With at least one worker, the call resolves on an empty queue, every
    task taken. *)
Lemma resolved_drained sched s roles :
  1 ≤ concurrency →
  run g (start g rolesData concurrency) sched = Some s →
  resolved s = Some roles →
  queue (frame s) = [] ∧ shifted (trace (frame s)) = rolesData.
Proof.
  intros HK E Hres.
  pose proof (run_invariant _ _ E) as Hinv.
  pose proof (run_concurrency _ _ E) as Hlen.
  assert (Hq : queue (frame s) = []).
  { unfold resolved in Hres.
    destruct (forallb is_finished (workers s)) eqn:Hall; [|done].
    pose proof (inv_workers _ _ _ Hinv) as Hws.
    destruct (workers s) as [|pc ws]; simpl in *; [lia|].
    apply andb_prop in Hall as [Hpc _]. destruct pc; try done.
    by apply Forall_cons_1 in Hws as [Hfin _]. }
  split; [done|]. rewrite <- (inv_shift _ _ _ Hinv), Hq. by rewrite app_nil_r.
Qed.
End Reachable.

Lemma resolved_Some s roles :
  resolved s = Some roles →
  roles = createdRoles (frame s) ∧ forallb is_finished (workers s) = true.
Proof.
  unfold resolved. destruct (forallb is_finished (workers s)); [|done].
  by intros [= <-].
Qed.

(** ** Reading counts off the lists *)

Lemma cnt_omap {X : Type} (f : Event → option X) (P : Event → bool)
    (Q : X → bool) tr :
  (∀ e, P e = match f e with Some x => Q x | None => false end) →
  cnt P tr = length (List.filter Q (omap f tr)).
Proof.
  intros H. unfold cnt. induction tr as [|e tr IH]; [done|]. simpl.
  rewrite H. destruct (f e) as [x|]; simpl; [|done].
  destruct (Q x); simpl; by rewrite IH.
Qed.

Lemma filter_true_length {X : Type} (l : list X) :
  length (List.filter (λ _, true) l) = length l.
Proof. induction l; simpl; congruence. Qed.

Lemma cnt_claim g A tr :
  cnt (is_claim g A) tr
  = length (List.filter (λ t, not_cached g t && A (create_args t)) (shifted tr)).
Proof. apply cnt_omap. by intros []. Qed.

Lemma cnt_skip g Q tr :
  cnt (is_skip g Q) tr = length (List.filter Q (cached_roles g (shifted tr))).
Proof.
  unfold cnt, cached_roles, shifted.
  induction tr as [|e tr IH]; [done|]. destruct e; simpl; try done.
  destruct (cache_find g (name t)) as [r|]; simpl; [|done].
  destruct (Q r); simpl; by rewrite IH.
Qed.

Lemma cnt_push Q tr : cnt (is_push Q) tr = length (List.filter Q (pushed tr)).
Proof. apply cnt_omap. by intros []. Qed.

Lemma cnt_create A tr : cnt (is_create A) tr = length (List.filter A (invoked tr)).
Proof. apply cnt_omap. by intros []. Qed.



Lemma cnt_fulfilled_any tr :
  cnt (is_fulfilled any_role) tr = cnt (is_settle any_args is_ok) tr.
Proof. apply cnt_ext. by intros [? ?|? ?|? ? []|? ?|? ? ?|? ?]. Qed.

Lemma not_cached_all g rolesData A :
  Forall (λ t, cache_find g (name t) = None) rolesData →
  List.filter (λ t, not_cached g t && A (create_args t)) rolesData
  = List.filter (λ t, A (create_args t)) rolesData.
Proof.
  intros H. apply List.filter_ext_in. intros t Ht.
  rewrite Forall_forall in H. unfold not_cached.
  by rewrite (H t) by (by apply list_elem_of_In).
Qed.

(** ** The queue: what a resolved call has done *)


Section Resolved.
Variables (g : Guild) (rolesData : list RoleData) (concurrency : nat).
Variables (sched : list (nat * Wake)) (s : State).
Hypothesis Hworkers : 1 ≤ concurrency.
Hypothesis Hrun : run g (start g rolesData concurrency) sched = Some s.
Hypothesis Hresolved : is_Some (resolved s).

Local Abbreviation tr := (trace (frame s)).

Lemma resolved_finished : forallb is_finished (workers s) = true.
Proof. destruct Hresolved as [roles H]. by apply resolved_Some in H as [_ H]. Qed.

Lemma resolved_shifted : shifted tr = rolesData.
Proof.
  destruct Hresolved as [roles H].
  by destruct (resolved_drained g rolesData concurrency sched s roles).
Qed.

(** For the arguments in [A]: one invocation per task that was not in the
    cache, and one per rate limit. *)
Lemma resolved_invoked A :
  length (List.filter A (invoked tr))
  = length (List.filter (λ t, not_cached g t && A (create_args t)) rolesData)
    + cnt (is_settle A is_rl) tr.
Proof.
  pose proof (inv_invoked _ _ _ (run_invariant _ _ _ _ _ Hrun) A) as H.
  rewrite (wsum_finished _ _ resolved_finished eq_refl) in H.
  rewrite cnt_claim, cnt_create in H.
  rewrite resolved_shifted in H. lia.
Qed.

(** Every task that was not in the cache has met its final outcome. *)
Lemma resolved_final A :
  length (List.filter (λ t, not_cached g t && A (create_args t)) rolesData)
  = cnt (is_settle A is_final) tr.
Proof.
  pose proof (inv_claimed _ _ _ (run_invariant _ _ _ _ _ Hrun) A) as H.
  rewrite !(wsum_finished _ _ resolved_finished eq_refl) in H.
  rewrite cnt_claim in H. rewrite resolved_shifted in H. lia.
Qed.

(** The roles returned: the cache hits and the roles created. *)
Lemma resolved_roles Q :
  length (List.filter Q (createdRoles (frame s)))
  = length (List.filter Q (cached_roles g rolesData)) + cnt (is_fulfilled Q) tr.
Proof.
  pose proof (run_invariant _ _ _ _ _ Hrun) as Hinv.
  pose proof (inv_roles _ _ _ Hinv Q) as H.
  rewrite cnt_push, cnt_skip in H.
  by rewrite resolved_shifted, <- (inv_push _ _ _ Hinv) in H.
Qed.

End Resolved.

(** C1.  With at least one worker and no task name in the cache, a resolved
    call has taken the tasks off the queue once each, in the order of
    [rolesData]; [create] was invoked once for every task and once more for
    every rate limit met: counted for each argument tuple, and in total
    [N] plus the number of rate limits. *)
Theorem createRoleQueueConcurrent_attempts_each_task
    g rolesData concurrency sched s :
  1 ≤ concurrency →
  Forall (λ t, cache_find g (name t) = None) rolesData →
  run g (start g rolesData concurrency) sched = Some s →
  is_Some (resolved s) →
  shifted (trace (frame s)) = rolesData
  ∧ (∀ a, length (List.filter (same_args a) (invoked (trace (frame s))))
          = length (List.filter (λ t, same_args a (create_args t)) rolesData)
            + cnt (is_settle (same_args a) is_rl) (trace (frame s)))
  ∧ length (invoked (trace (frame s)))
    = length rolesData + cnt (is_settle any_args is_rl) (trace (frame s)).
Proof.
  intros HK Hnone Hrun Hres. split; [|split].
  - by eapply resolved_shifted.
  - intros a.
    rewrite (resolved_invoked g rolesData concurrency sched s HK Hrun Hres).
    by rewrite not_cached_all.
  - pose proof (resolved_invoked g rolesData concurrency sched s HK Hrun Hres
                  any_args) as H.
    rewrite not_cached_all in H by done.
    by rewrite !filter_true_length in H.
Qed.

Lemma createRoleQueueConcurrent_attempts_each_task_witness :
  shifted (trace (frame Demo.final')) = [Demo.Blue; Demo.Pink; Demo.Green]
  ∧ (∀ a, length (List.filter (same_args a) (invoked (trace (frame Demo.final'))))
          = length (List.filter (λ t, same_args a (create_args t))
                      [Demo.Blue; Demo.Pink; Demo.Green])
            + cnt (is_settle (same_args a) is_rl) (trace (frame Demo.final')))
  ∧ length (invoked (trace (frame Demo.final')))
    = length [Demo.Blue; Demo.Pink; Demo.Green]
      + cnt (is_settle any_args is_rl) (trace (frame Demo.final')).
Proof.
  apply (createRoleQueueConcurrent_attempts_each_task
           Demo.bare [Demo.Blue; Demo.Pink; Demo.Green] 2 Demo.schedule').
  - lia.
  - repeat constructor.
  - vm_compute. reflexivity.
  - vm_compute. eauto.
Defined.

(** C2.  [create] is never invoked with a name that the cache has a role
    for; and with at least one worker a resolved call returns, besides the
    roles created, the cached role of every task that has one: each role
    as often as tasks hit it. *)
Theorem createRoleQueueConcurrent_skips_cached
    g rolesData concurrency sched s :
  run g (start g rolesData concurrency) sched = Some s →
  Forall (λ a, cache_find g (arg_name a) = None) (invoked (trace (frame s)))
  ∧ ∀ roles, 1 ≤ concurrency → resolved s = Some roles →
      (∀ r, length (List.filter (same_role r) roles)
            = length (List.filter (same_role r) (cached_roles g rolesData))
              + cnt (is_fulfilled (same_role r)) (trace (frame s)))
      ∧ ∀ t r, t ∈ rolesData → cache_find g (name t) = Some r → r ∈ roles.
Proof.
  intros Hrun. pose proof (run_invariant _ _ _ _ _ Hrun) as Hinv. split.
  - pose proof (inv_events _ _ _ Hinv) as Hev.
    induction Hev as [|e tr He _ IH]; [constructor|].
    destruct e; simpl; try done. constructor; [|done].
    by destruct He as (t & _ & Hc & ->).
  - intros roles HK Hres.
    assert (Hcount : ∀ r, length (List.filter (same_role r) roles)
              = length (List.filter (same_role r) (cached_roles g rolesData))
                + cnt (is_fulfilled (same_role r)) (trace (frame s))).
    { intros r. destruct (resolved_Some _ _ Hres) as [-> _].
      by eapply resolved_roles. }
    split; [done|]. intros t r Ht Hc.
    assert (Hin : r ∈ List.filter (same_role r) (cached_roles g rolesData)).
    { apply list_elem_of_In, List.filter_In. split.
      - apply list_elem_of_In, list_elem_of_omap. by exists t.
      - by apply bool_decide_eq_true. }
    specialize (Hcount r).
    destruct (List.filter (same_role r) roles) as [|r' rs] eqn:Ef.
    + destruct (List.filter (same_role r) (cached_roles g rolesData));
        [by apply not_elem_of_nil in Hin | simpl in Hcount; lia].
    + assert (Hr' : r' ∈ List.filter (same_role r) roles)
        by (rewrite Ef; set_solver).
      apply list_elem_of_In, List.filter_In in Hr' as [Hr' Heq].
      apply bool_decide_eq_true in Heq. subst r'. by apply list_elem_of_In.
Qed.

Lemma createRoleQueueConcurrent_skips_cached_witness :
  Forall (λ a, cache_find Demo.guild (arg_name a) = None)
         (invoked (trace (frame Demo.final)))
  ∧ (∀ r, length (List.filter (same_role r) [Demo.red; Demo.pink; Demo.blue])
          = length (List.filter (same_role r) (cached_roles Demo.guild Demo.rolesData))
            + cnt (is_fulfilled (same_role r)) (trace (frame Demo.final)))
  ∧ Demo.red ∈ [Demo.red; Demo.pink; Demo.blue].
Proof.
  destruct (createRoleQueueConcurrent_skips_cached
              Demo.guild Demo.rolesData 2 Demo.schedule Demo.final)
    as [Hnever Hroles].
  - vm_compute. reflexivity.
  - split; [exact Hnever|].
    destruct (Hroles [Demo.red; Demo.pink; Demo.blue]) as [Hcount Hin].
    + lia.
    + vm_compute. reflexivity.
    + split; [exact Hcount|]. apply (Hin Demo.Red).
      * set_solver.
      * reflexivity.
Defined.

(** ** The queue: when the call rejects *)

Lemma while_queue_not_threw g w q cr tr f' pc' :
  while_queue g w q cr tr = (f', pc') → is_threw pc' = false.
Proof.
  revert cr tr. induction q as [|t q IH]; intros cr tr E; simpl in E.
  - by injection E as <- <-.
  - destruct (cache_find g (name t)); [by eapply IH|by injection E as <- <-].
Qed.

Lemma rejected_insert ws w pc pc' :
  ws !! w = Some pc → is_threw pc = false →
  existsb is_threw (<[w := pc']> ws) = existsb is_threw ws || is_threw pc'.
Proof.
  revert w. induction ws as [|pc0 ws IH]; intros w Hw Hpc; [done|].
  destruct w as [|w]; simpl in *.
  - injection Hw as ->. rewrite Hpc. simpl.
    by destruct (is_threw pc'), (existsb is_threw ws).
  - rewrite (IH w Hw Hpc). by destruct (is_threw pc0).
Qed.

(** A resumption makes the call reject exactly when it delivers a
    rejection that the [catch] block cannot read. *)
Lemma resume_rejected g s w x s' :
  resume g s w x = Some s' → rejected s' = rejected s || negb (readable x).
Proof.
  unfold resume, rejected. intros E.
  destruct (workers s !! w) as [pc|] eqn:Hw; [|done]. simpl in E.
  destruct (resume_worker g w (frame s) pc x) as [[f' pc']|] eqn:Er; [|done].
  simpl in E. injection E as <-. simpl.
  destruct pc as [t i| |t| |t], x as [[role|err]|v|]; simpl in Er; try done;
    rewrite (rejected_insert _ _ _ _ Hw eq_refl); f_equal.
  - by injection Er as <- <-.
  - destruct (is_rate_limit err).
    + by injection Er as <- <-.
    + injection Er as Er. by eapply while_queue_not_threw.
  - by injection Er as <- <-.
  - injection Er as Er. by eapply while_queue_not_threw.
  - by injection Er as <- <-.
Qed.


Lemma spawn_not_rejected g k f ws :
  existsb is_threw ws = false → rejected (spawn g k f ws) = false.
Proof.
  revert f ws. induction k as [|k IH]; intros f ws Hws; simpl; [done|].
  destruct (worker_loop g (length ws) f) as [f' pc'] eqn:E.
  apply IH. rewrite existsb_app, Hws. simpl.
  by rewrite (while_queue_not_threw _ _ _ _ _ _ _ E).
Qed.

Lemma run_mock_not_rejected g m s sched s' :
  run_mock g m s sched = Some s' → rejected s = false → rejected s' = false.
Proof.
  revert s. induction sched as [|w sched IH]; intros s E Hs; simpl in E.
  - by injection E as <-.
  - destruct (wake_of m s w) as [x|] eqn:Ex; [|done]. simpl in E.
    destruct (resume g s w x) as [s1|] eqn:E1; [|done]. simpl in E.
    eapply IH; [done|]. rewrite (resume_rejected _ _ _ _ _ E1), Hs.
    unfold wake_of in Ex.
    destruct (workers s !! w) as [[]|]; try done; by injection Ex as <-.
Qed.





(** ** The queue: how long a run can be *)

Lemma while_queue_potential g w q cr tr f' pc' :
  while_queue g w q cr tr = (f', pc') →
  2 * length (queue f') + owed pc' ≤ 2 * length q
  ∧ cnt (is_settle any_args is_rl) (trace f') = cnt (is_settle any_args is_rl) tr.
Proof.
  revert cr tr. induction q as [|t q IH]; intros cr tr E; simpl in E.
  - injection E as <- <-. simpl. lia.
  - destruct (cache_find g (name t)) as [role|].
    + apply IH in E as [E1 E2]. rewrite E2, cnt_app. simpl. split; [lia|].
      rewrite !cnt_cons, cnt_nil. simpl. lia.
    + injection E as <- <-. simpl. split; [lia|].
      rewrite !cnt_app, !cnt_cons, cnt_nil. simpl. lia.
Qed.

(** A resumption pays one unit of the potential, unless it delivers a rate
    limit, which adds one. *)
Lemma resume_potential g s w x s' :
  resume g s w x = Some s' →
  1 + potential s' + 2 * cnt (is_settle any_args is_rl) (trace (frame s))
  ≤ potential s + 2 * cnt (is_settle any_args is_rl) (trace (frame s')).
Proof.
  unfold resume, potential. intros E.
  destruct (workers s !! w) as [pc|] eqn:Hw; [|done]. simpl in E.
  destruct (resume_worker g w (frame s) pc x) as [[f' pc']|] eqn:Er; [|done].
  simpl in E. injection E as <-. simpl.
  pose proof (wsum_insert owed (workers s) w pc pc' Hw) as Hsum.
  destruct pc as [t i| |t| |t], x as [[role|err]|v|]; simpl in Er; try done.
  - injection Er as <- <-. simpl in *.
    rewrite cnt_app, !cnt_cons, cnt_nil. simpl. lia.
  - destruct (is_rate_limit err) eqn:Erl.
    + injection Er as <- <-. simpl in *.
      rewrite cnt_app, !cnt_cons, cnt_nil. unfold any_args. simpl.
      rewrite Erl. lia.
    + injection Er as Er. apply while_queue_potential in Er as [E1 E2].
      simpl in *. rewrite E2, cnt_app, !cnt_cons, cnt_nil. unfold any_args.
      simpl. rewrite Erl. lia.
  - injection Er as <- <-. simpl in *. lia.
  - injection Er as Er. apply while_queue_potential in Er as [E1 E2].
    simpl in *. rewrite E2. lia.
  - injection Er as <- <-. simpl in *.
    rewrite cnt_app, !cnt_cons, cnt_nil. simpl. lia.
Qed.

Lemma run_potential g s sched s' :
  run g s sched = Some s' →
  length sched + potential s' + 2 * cnt (is_settle any_args is_rl) (trace (frame s))
  ≤ potential s + 2 * cnt (is_settle any_args is_rl) (trace (frame s')).
Proof.
  revert s. induction sched as [|[w x] sched IH]; intros s E; simpl in E.
  - injection E as <-. simpl. lia.
  - destruct (resume g s w x) as [s1|] eqn:E1; [|done]. simpl in E.
    apply IH in E. apply resume_potential in E1. simpl. lia.
Qed.

Lemma spawn_potential g k f ws :
  potential (spawn g k f ws) ≤ potential (mkState f ws)
  ∧ cnt (is_settle any_args is_rl) (trace (frame (spawn g k f ws)))
    = cnt (is_settle any_args is_rl) (trace f).
Proof.
  revert f ws. induction k as [|k IH]; intros f ws; simpl; [done|].
  destruct (worker_loop g (length ws) f) as [f' pc'] eqn:E.
  apply while_queue_potential in E as [E1 E2].
  destruct (IH f' (ws ++ [pc'])) as [H1 H2]. rewrite H2, E2. split; [|done].
  unfold potential in *. simpl in *. rewrite wsum_app in H1. lia.
Qed.

(** A run of [n] resumptions that met [r] rate limits has [n ≤ 2N + 2r]. *)
Lemma run_length_bound g rolesData concurrency sched s :
  run g (start g rolesData concurrency) sched = Some s →
  length sched
  ≤ 2 * length rolesData + 2 * cnt (is_settle any_args is_rl) (trace (frame s)).
Proof.
  intros E. apply run_potential in E.
  destruct (spawn_potential g concurrency (mkFrame rolesData [] []) []) as [H1 H2].
  unfold start in E. rewrite H2 in E. unfold potential in H1 at 2.
  simpl in *. lia.
Qed.

(** ** The queue against a mock *)

Lemma outcomes_le m a R n : outcomes m a R n ≤ n.
Proof.
  unfold outcomes. etrans; [apply List.filter_length_le|].
  by rewrite length_fmap, length_seq.
Qed.

Lemma outcomes_mono m a R n d : outcomes m a R n ≤ outcomes m a R (n + d).
Proof.
  induction d as [|d IH]; [by rewrite Nat.add_0_r|].
  rewrite Nat.add_succ_r, outcomes_S. lia.
Qed.

(** If no invocation from the [B]-th on has an outcome in [R], at most [B]
    outcomes are in [R]. *)
Lemma outcomes_bounded m a R B n :
  (∀ i, B ≤ i → R (m a i) = false) → outcomes m a R n ≤ B.
Proof.
  intros H. induction n as [|n IH]; [unfold outcomes; simpl; lia|].
  rewrite outcomes_S. destruct (decide (B ≤ n)) as [Hn|Hn].
  - rewrite (H n Hn). lia.
  - pose proof (outcomes_le m a R n). destruct (R (m a n)); lia.
Qed.

(** Two prefixes with the same number of final outcomes have the same
    number of fulfilled ones: what lies between them is rate limits. *)
Lemma outcomes_agree m a n1 n2 :
  outcomes m a is_final n1 = outcomes m a is_final n2 →
  outcomes m a is_ok n1 = outcomes m a is_ok n2.
Proof.
  assert (H : ∀ n d, outcomes m a is_final n = outcomes m a is_final (n + d) →
                     outcomes m a is_ok n = outcomes m a is_ok (n + d)).
  { intros n d. induction d as [|d IH]; [by rewrite Nat.add_0_r|].
    rewrite Nat.add_succ_r, !outcomes_S. intros E.
    pose proof (outcomes_mono m a is_final n d).
    unfold is_final, is_rl, is_ok in *.
    destruct (m a (n + d)) as [r|err]; simpl in *; [lia|].
    rewrite Nat.add_0_r. apply IH. destruct (is_rate_limit err); simpl in *; lia. }
  intros E. destruct (Nat.le_ge_cases n1 n2) as [Hle|Hle].
  - replace n2 with (n1 + (n2 - n1)) in * by lia. by apply H.
  - replace n1 with (n2 + (n1 - n2)) in * by lia. symmetry. by apply H.
Qed.

Lemma cnt_ext_in P Q tr : (∀ e, e ∈ tr → P e = Q e) → cnt P tr = cnt Q tr.
Proof.
  intros E. unfold cnt. f_equal. apply List.filter_ext_in.
  intros e He. apply E. by apply list_elem_of_In.
Qed.

(** Counting by argument tuple: at most [B] each, so at most [B] times the
    number of tuples. *)
Lemma cnt_settle_among R B U tr :
  (∀ a, a ∈ U → cnt (is_settle (same_args a) R) tr ≤ B) →
  cnt (is_settle (among U) R) tr ≤ B * length U.
Proof.
  intros H. induction U as [|u U IH]; simpl.
  - rewrite cnt_0; [lia|]. by intros [? ?|? ?|? ? ?|? ?|? ? ?|? ?] _.
  - etrans; [apply (cnt_le_or _ (is_settle (same_args u) R)
                                 (is_settle (among U) R))|].
    + intros [? ?|? ?|w a r|? ?|? ? ?|? ?]; simpl; try done.
      unfold among, same_args. destruct (R r); rewrite ?andb_false_r; [|done].
      rewrite !andb_true_r. repeat case_bool_decide; set_solver.
    + specialize (IH (λ a Ha, H a (list_elem_of_further _ _ _ Ha))).
      specialize (H u (list_elem_of_here _ _)). lia.
Qed.

Lemma run_mock_app g m s sched1 sched2 :
  run_mock g m s (sched1 ++ sched2)
  = s' ← run_mock g m s sched1; run_mock g m s' sched2.
Proof.
  revert s. induction sched1 as [|w sched1 IH]; intros s; simpl; [done|].
  destruct (wake_of m s w) as [x|]; simpl; [|done].
  destruct (resume g s w x) as [s1|]; simpl; [|done]. apply IH.
Qed.

(** A call that has neither resolved nor rejected has a worker to resume. *)
Lemma mock_progress g m s :
  rejected s = false →
  resolved s = None → ∃ w s', run_mock g m s [w] = Some s'.
Proof.
  unfold resolved, rejected. intros Hrej.
  destruct (forallb is_finished (workers s)) eqn:Hall; [done|].
  intros _.
  assert (∃ w pc, workers s !! w = Some pc ∧ is_finished pc = false
                  ∧ is_threw pc = false)
    as (w & pc & Hw & Hpc & Hth).
  { induction (workers s) as [|pc ws IH]; [done|]. simpl in Hall, Hrej.
    apply orb_false_elim in Hrej as [Hth Hrej].
    destruct (is_finished pc) eqn:Hpc.
    - destruct (IH Hrej Hall) as (w & pc' & Hw & Hpc' & Hth').
      by exists (S w), pc'.
    - by exists 0, pc. }
  exists w. simpl. unfold wake_of, resume. rewrite Hw.
  destruct pc as [t i| |t| |t]; simpl; try done; rewrite ?Hw; simpl; eauto.
  - destruct (m (create_args t) i) as [role|err]; simpl; [eauto|].
    destruct (is_rate_limit err); simpl; [eauto|].
    destruct (worker_loop _ _ _); simpl; eauto.
  - destruct (worker_loop _ _ _); simpl; eauto.
Qed.

Section MockRuns.
Variables (g : Guild) (m : Mock) (rolesData : list RoleData) (concurrency : nat).

(** The rate limits received for [a] are among the outcomes of the
    invocations made for [a]. *)
Lemma mock_settled sched s a R :
  run_mock g m (start g rolesData concurrency) sched = Some s →
  cnt (is_settle (same_args a) R) (trace (frame s))
  ≤ outcomes m a R (invocations a (trace (frame s))).
Proof.
  intros E. destruct (run_mock_invariant _ _ _ _ _ _ E) as [_ Hm].
  specialize (Hm a R). lia.
Qed.

Lemma mock_rate_limits B sched s :
  (∀ t i, t ∈ rolesData → B ≤ i → is_rl (m (create_args t) i) = false) →
  run_mock g m (start g rolesData concurrency) sched = Some s →
  cnt (is_settle any_args is_rl) (trace (frame s)) ≤ B * length rolesData.
Proof.
  intros HB E. destruct (run_mock_invariant _ _ _ _ _ _ E) as [Hinv _].
  rewrite (cnt_ext_in _ (is_settle (among (create_args <$> rolesData)) is_rl)).
  - rewrite <- (length_fmap create_args rolesData).
    apply cnt_settle_among. intros a Ha.
    apply list_elem_of_fmap in Ha as (t & -> & Ht).
    etrans; [apply (mock_settled sched s (create_args t) is_rl E)|].
    apply outcomes_bounded. intros i Hi. by apply HB.
  - intros e He. pose proof (inv_events _ _ _ Hinv) as Hev.
    rewrite Forall_forall in Hev. specialize (Hev e He).
    destruct e as [? ?|? ?|w a r|? ?|? ? ?|? ?]; simpl; try done.
    destruct Hev as (t & Ht & _ & ->). unfold any_args, among.
    rewrite bool_decide_eq_true_2; [done|]. by apply list_elem_of_fmap_2.
Qed.

(** If every argument tuple is rate limited at most [B] times, a run has
    at most [2N(1+B)] resumptions... *)
Lemma mock_run_bound B sched s :
  (∀ t i, t ∈ rolesData → B ≤ i → is_rl (m (create_args t) i) = false) →
  run_mock g m (start g rolesData concurrency) sched = Some s →
  length sched ≤ 2 * length rolesData * (1 + B).
Proof.
  intros HB E. pose proof (mock_rate_limits B sched s HB E) as Hrl.
  destruct (run_mock_run _ _ _ _ _ E) as (labels & Hrun & <-).
  apply run_length_bound in Hrun. nia.
Qed.

(** ... and can always be continued until the call resolves. *)
Lemma mock_run_resolves B sched s :
  (∀ t i, t ∈ rolesData → B ≤ i → is_rl (m (create_args t) i) = false) →
  run_mock g m (start g rolesData concurrency) sched = Some s →
  ∃ sched' roles,
    createRoleQueueConcurrent_mock g m rolesData concurrency (sched ++ sched')
    = Some roles.
Proof.
  intros HB.
  remember (2 * length rolesData * (1 + B) - length sched) as fuel eqn:Hfuel.
  revert sched s Hfuel.
  induction fuel as [fuel IH] using lt_wf_ind. intros sched s Hfuel E.
  destruct (resolved s) as [roles|] eqn:Hres.
  - exists [], roles. unfold createRoleQueueConcurrent_mock.
    rewrite app_nil_r, E. done.
  - assert (Hrej : rejected s = false).
    { eapply run_mock_not_rejected; [exact E|]. by apply spawn_not_rejected. }
    destruct (mock_progress g m s Hrej Hres) as (w & s' & Hstep).
    assert (E' : run_mock g m (start g rolesData concurrency) (sched ++ [w])
                 = Some s').
    { rewrite run_mock_app, E. done. }
    pose proof (mock_run_bound B _ _ HB E') as Hlen.
    rewrite length_app in Hlen. simpl in Hlen.
    destruct (IH (2 * length rolesData * (1 + B) - length (sched ++ [w])))
      with (sched := sched ++ [w]) (s := s') as (sched' & roles & Hdone);
      [rewrite length_app; simpl; lia | done | done |].
    exists (w :: sched'), roles. by rewrite <- app_assoc in Hdone.
Qed.

(** If some task is not in the cache and [create] is rate limited every
    time for it, the call never resolves. *)
Lemma mock_never_resolves sched s :
  1 ≤ concurrency →
  (∃ t, t ∈ rolesData ∧ cache_find g (name t) = None
        ∧ ∀ i, is_rl (m (create_args t) i) = true) →
  run_mock g m (start g rolesData concurrency) sched = Some s →
  resolved s = None.
Proof.
  intros HK (t & Ht & Hc & Hrl) E.
  destruct (resolved s) as [roles|] eqn:Hres; [|done]. exfalso.
  destruct (run_mock_run _ _ _ _ _ E) as (labels & Hrun & _).
  pose proof (resolved_final g rolesData concurrency labels s HK Hrun
                (mk_is_Some _ _ Hres) (same_args (create_args t))) as Hfin.
  pose proof (mock_settled sched s (create_args t) is_final E) as Hle.
  assert (Hz : ∀ n, outcomes m (create_args t) is_final n = 0).
  { intros n. induction n as [|n IHn]; [done|]. rewrite outcomes_S, IHn.
    unfold is_final. by rewrite Hrl. }
  rewrite Hz in Hle.
  assert (Hin : t ∈ List.filter
            (λ t', not_cached g t' && same_args (create_args t) (create_args t'))
            rolesData).
  { apply list_elem_of_In, List.filter_In. split; [by apply list_elem_of_In|].
    unfold not_cached, same_args. rewrite Hc. by rewrite bool_decide_eq_true_2. }
  destruct (List.filter _ rolesData); [by apply not_elem_of_nil in Hin|].
  simpl in Hfin. lia.
Qed.
End MockRuns.

(** Counts that agree for every argument tuple agree in total. *)
Lemma length_by_count (l1 l2 : list CreateArgs) :
  (∀ a, length (List.filter (same_args a) l1) = length (List.filter (same_args a) l2)) →
  length l1 = length l2.
Proof.
  intros H. apply Permutation_length.
  apply (Permutation_count_occ CreateArgs_eq_dec). intros a.
  assert (Hc : ∀ l, count_occ CreateArgs_eq_dec l a
                    = length (List.filter (same_args a) l)).
  { intros l. induction l as [|y l IH]; [done|]. simpl. unfold same_args at 1.
    destruct (CreateArgs_eq_dec y a) as [->|Hne].
    - rewrite bool_decide_eq_true_2 by done. simpl. by rewrite IH.
    - rewrite bool_decide_eq_false_2 by done. done. }
  by rewrite !Hc.
Qed.

Lemma cnt_settle_by_args R tr1 tr2 :
  (∀ a, cnt (is_settle (same_args a) R) tr1 = cnt (is_settle (same_args a) R) tr2) →
  cnt (is_settle any_args R) tr1 = cnt (is_settle any_args R) tr2.
Proof.
  set (f := λ e, match e with
                 | EvSettle _ a r => if R r then Some a else None
                 | _ => None
                 end).
  assert (Hf : ∀ A tr, cnt (is_settle A R) tr = length (List.filter A (omap f tr))).
  { intros A tr. apply cnt_omap.
    intros [? ?|? ?|w a r|? ?|? ? ?|? ?]; simpl; try done.
    destruct (R r); [by rewrite andb_true_r | by rewrite andb_false_r]. }
  intros H. rewrite !Hf, !filter_true_length. apply length_by_count.
  intros a. by rewrite <- !Hf.
Qed.

(** C7.  With at least one worker: the call resolves on an empty queue
    only, every task taken; a worker waiting for [create] is not resumed by
    a timer; a run of [n] resumptions that met [r] rate limits has
    [n ≤ 2N + 2r].  Against a [create] that rate limits no argument tuple
    of a task more than [B] times, every run has at most [2N(1+B)]
    resumptions and can be continued until the call resolves, so the call
    terminates.  Against a [create] that always rate limits some task that
    is not in the cache, no run resolves the call and every run can be
    continued. *)
Theorem createRoleQueueConcurrent_terminates_unless_rate_limited
    g rolesData concurrency :
  1 ≤ concurrency →
  (∀ sched s,
      run g (start g rolesData concurrency) sched = Some s →
      (is_Some (resolved s) →
       queue (frame s) = [] ∧ shifted (trace (frame s)) = rolesData)
      ∧ (∀ w t i, workers s !! w = Some (AwaitCreate t i) →
                  resume g s w TimerFired = None)
      ∧ length sched
        ≤ 2 * length rolesData
          + 2 * cnt (is_settle any_args is_rl) (trace (frame s)))
  ∧ (∀ (m : Mock) B,
      (∀ t i, t ∈ rolesData → B ≤ i → is_rl (m (create_args t) i) = false) →
      ∀ sched s,
        run_mock g m (start g rolesData concurrency) sched = Some s →
        length sched ≤ 2 * length rolesData * (1 + B)
        ∧ ∃ sched' roles,
            createRoleQueueConcurrent_mock g m rolesData concurrency
              (sched ++ sched') = Some roles)
  ∧ (∀ (m : Mock),
      (∃ t, t ∈ rolesData ∧ cache_find g (name t) = None
            ∧ ∀ i, is_rl (m (create_args t) i) = true) →
      ∀ sched s,
        run_mock g m (start g rolesData concurrency) sched = Some s →
        resolved s = None ∧ ∃ w s', run_mock g m s [w] = Some s').
Proof.
  intros HK. split; [|split].
  - intros sched s Hrun. split; [|split].
    + intros [roles Hres]. by eapply resolved_drained.
    + intros w t i Hw. unfold resume. by rewrite Hw.
    + by apply (run_length_bound g rolesData concurrency).
  - intros m B HB sched s Hrun. split.
    + by eapply mock_run_bound.
    + by eapply mock_run_resolves.
  - intros m Ht sched s Hrun.
    assert (Hres : resolved s = None) by (by eapply mock_never_resolves).
    split; [done|]. apply mock_progress; [|done].
    eapply run_mock_not_rejected; [exact Hrun|]. by apply spawn_not_rejected.
Qed.

Lemma createRoleQueueConcurrent_terminates_unless_rate_limited_witness :
  (queue (frame Demo.final) = []
   ∧ shifted (trace (frame Demo.final)) = Demo.rolesData)
  ∧ length Demo.schedule
    ≤ 2 * length Demo.rolesData
      + 2 * cnt (is_settle any_args is_rl) (trace (frame Demo.final))
  ∧ (∃ sched' roles,
        createRoleQueueConcurrent_mock Demo.guild Demo.mock Demo.rolesData 2
          ([0; 1] ++ sched') = Some roles)
  ∧ createRoleQueueConcurrent_mock Demo.guild Demo.busy Demo.rolesData 2
      [0; 1; 0; 1; 0] = None.
Proof.
  destruct (createRoleQueueConcurrent_terminates_unless_rate_limited
              Demo.guild Demo.rolesData 2) as (Hany & Hfinite & Hforever); [lia|].
  split; [|split; [|split]].
  - destruct (Hany Demo.schedule Demo.final) as (Hdrained & _ & _).
    + vm_compute. reflexivity.
    + apply Hdrained. vm_compute. eauto.
  - destruct (Hany Demo.schedule Demo.final) as (_ & _ & Hlen).
    + vm_compute. reflexivity.
    + exact Hlen.
  - destruct (Hfinite Demo.mock 1) with (sched := [0; 1])
        (s := default (start Demo.guild Demo.rolesData 2)
                (run_mock Demo.guild Demo.mock
                   (start Demo.guild Demo.rolesData 2) [0; 1]))
      as [_ Hdone].
    + intros t [|i] _ Hi; [lia|]. unfold Demo.mock.
      by destruct (bool_decide (arg_name (create_args t) = "Green")).
    + vm_compute. reflexivity.
    + exact Hdone.
  - destruct (Hforever Demo.busy) with (sched := [0; 1; 0; 1; 0])
        (s := default (start Demo.guild Demo.rolesData 2)
                (run_mock Demo.guild Demo.busy
                   (start Demo.guild Demo.rolesData 2) [0; 1; 0; 1; 0]))
      as [Hnot _].
    + exists Demo.Blue. split; [set_solver|]. split; reflexivity.
    + vm_compute. reflexivity.
    + unfold createRoleQueueConcurrent_mock.
      replace (run_mock Demo.guild Demo.busy (start Demo.guild Demo.rolesData 2)
                 [0; 1; 0; 1; 0])
        with (Some (default (start Demo.guild Demo.rolesData 2)
                (run_mock Demo.guild Demo.busy
                   (start Demo.guild Demo.rolesData 2) [0; 1; 0; 1; 0])))
        by (vm_compute; reflexivity).
      exact Hnot.
Defined.

(** C8.  Against the same mock, one whose outcome depends on the
    arguments of [create] and on the number of earlier invocations with
    these arguments only, two resolved calls return the same number of
    roles, whatever their worker counts (at least one each) and schedules;
    so in particular with 1 worker and with 5.  (Against a mock that counts
    all its invocations the number may differ, as the run after the witness
    shows.) *)
Theorem createRoleQueueConcurrent_size_independent_of_concurrency
    g (m : Mock) rolesData k1 k2 sched1 sched2 roles1 roles2 :
  1 ≤ k1 → 1 ≤ k2 →
  createRoleQueueConcurrent_mock g m rolesData k1 sched1 = Some roles1 →
  createRoleQueueConcurrent_mock g m rolesData k2 sched2 = Some roles2 →
  length roles1 = length roles2.
Proof.
  assert (Hsize : ∀ k sched roles,
    1 ≤ k →
    createRoleQueueConcurrent_mock g m rolesData k sched = Some roles →
    ∃ s, length roles
         = length (cached_roles g rolesData)
           + cnt (is_settle any_args is_ok) (trace (frame s))
      ∧ ∀ a, outcomes m a is_final (invocations a (trace (frame s)))
             = length (List.filter
                 (λ t, not_cached g t && same_args a (create_args t)) rolesData)
           ∧ cnt (is_settle (same_args a) is_ok) (trace (frame s))
             = outcomes m a is_ok (invocations a (trace (frame s)))).
  { intros k sched roles Hk Hcall. unfold createRoleQueueConcurrent_mock in Hcall.
    destruct (run_mock g m (start g rolesData k) sched) as [s|] eqn:Hrun; [|done].
    simpl in Hcall. exists s.
    destruct (run_mock_invariant _ _ _ _ _ _ Hrun) as [Hinv Hmock].
    destruct (run_mock_run _ _ _ _ _ Hrun) as (labels & Hrun' & _).
    destruct (resolved_Some _ _ Hcall) as [-> Hfin].
    pose proof (mk_is_Some _ _ Hcall) as Hres. split.
    - pose proof (resolved_roles g rolesData k labels s Hk Hrun' Hres any_role) as H.
      by rewrite !filter_true_length, cnt_fulfilled_any in H.
    - intros a. split.
      + rewrite (resolved_final g rolesData k labels s Hk Hrun' Hres).
        pose proof (Hmock a is_final) as H.
        rewrite (wsum_finished _ _ Hfin eq_refl) in H. lia.
      + pose proof (Hmock a is_ok) as H.
        rewrite (wsum_finished _ _ Hfin eq_refl) in H. lia. }
  intros Hk1 Hk2 Hcall1 Hcall2.
  destruct (Hsize k1 sched1 roles1 Hk1 Hcall1) as (s1 & -> & H1).
  destruct (Hsize k2 sched2 roles2 Hk2 Hcall2) as (s2 & -> & H2).
  f_equal. apply cnt_settle_by_args. intros a.
  destruct (H1 a) as [Hf1 ->]. destruct (H2 a) as [Hf2 ->].
  apply outcomes_agree. congruence.
Qed.

Lemma createRoleQueueConcurrent_size_independent_of_concurrency_witness :
  createRoleQueueConcurrent_mock Demo.guild Demo.mock Demo.rolesData 1
    [0; 0; 0; 0; 0; 0; 0; 0; 0; 0; 0]
  = Some [Demo.red; mkRole "Blue" "Blue"; mkRole "Pink" "Pink"]
  ∧ createRoleQueueConcurrent_mock Demo.guild Demo.mock Demo.rolesData 5
      [0; 1; 2; 0; 1; 2; 2; 1; 0; 2; 0]
    = Some [Demo.red; mkRole "Pink" "Pink"; mkRole "Blue" "Blue"]
  ∧ length [Demo.red; mkRole "Blue" "Blue"; mkRole "Pink" "Pink"]
    = length [Demo.red; mkRole "Pink" "Pink"; mkRole "Blue" "Blue"].
Proof.
  assert (E1 : createRoleQueueConcurrent_mock Demo.guild Demo.mock Demo.rolesData 1
                 [0; 0; 0; 0; 0; 0; 0; 0; 0; 0; 0]
               = Some [Demo.red; mkRole "Blue" "Blue"; mkRole "Pink" "Pink"])
    by (vm_compute; reflexivity).
  assert (E5 : createRoleQueueConcurrent_mock Demo.guild Demo.mock Demo.rolesData 5
                 [0; 1; 2; 0; 1; 2; 2; 1; 0; 2; 0]
               = Some [Demo.red; mkRole "Pink" "Pink"; mkRole "Blue" "Blue"])
    by (vm_compute; reflexivity).
  split; [exact E1|]. split; [exact E5|].
  apply (createRoleQueueConcurrent_size_independent_of_concurrency
           Demo.guild Demo.mock Demo.rolesData 1 5
           [0; 0; 0; 0; 0; 0; 0; 0; 0; 0; 0]
           [0; 1; 2; 0; 1; 2; 2; 1; 0; 2; 0]); [lia | lia | exact E1 | exact E5].
Defined.

(** As stated, for any deterministic [create], the claim fails: against
    the mock that counts its invocations, on "Blue" and "Green" in a guild
    without roles, one worker has "Blue" rate limited and created and then
    "Green" created, while of five workers the second has "Green" refused
    before "Blue" is retried. *)
Lemma createRoleQueueConcurrent_size_depends_on_concurrency :
  ∃ roles1 roles5,
    createRoleQueueConcurrent_counting Demo.bare Demo.counting [Demo.Blue; Demo.Green] 1
      [0; 0; 0; 0; 0; 0]
    = Some roles1
    ∧ createRoleQueueConcurrent_counting Demo.bare Demo.counting [Demo.Blue; Demo.Green] 5
        [0; 1; 0; 0; 0]
      = Some roles5
    ∧ roles1 = [mkRole "Blue" "Blue"; mkRole "Green" "Green"]
    ∧ roles5 = [mkRole "Blue" "Blue"]
    ∧ length roles1 ≠ length roles5.
Proof.
  exists [mkRole "Blue" "Blue"; mkRole "Green" "Green"], [mkRole "Blue" "Blue"].
  split_and!; try (vm_compute; reflexivity). simpl. lia.
Qed.

(** ** The queue: one worker at a time *)

Lemma by_worker_app w tr1 tr2 :
  by_worker w (tr1 ++ tr2) = by_worker w tr1 ++ by_worker w tr2.
Proof. apply List.filter_app. Qed.

Lemma by_worker_other w w' tr :
  w' ≠ w → Forall (λ e, event_worker e = w') tr → by_worker w tr = [].
Proof.
  intros Hne. induction 1 as [|e tr He _ IH]; [done|]. unfold by_worker in *.
  simpl. rewrite bool_decide_eq_false_2 by congruence. by rewrite IH.
Qed.

(** What the loop does from its head to the next [await]. *)
Lemma while_queue_events g w q cr tr f' pc' :
  while_queue g w q cr tr = (f', pc') →
  ∃ new,
    trace f' = tr ++ new
    ∧ Forall (λ e, event_worker e = w) new
    ∧ head new = EvShift w <$> head q
    ∧ q = shifted new ++ queue f'
    ∧ createdRoles f' = cr ++ pushed new
    ∧ pushed new = cached_roles g (shifted new)
    ∧ delays Pace new = [] ∧ delays Backoff new = []
    ∧ (pc' = Finished ∧ queue f' = [] ∧ invoked new = []
       ∨ ∃ t i, pc' = AwaitCreate t i ∧ cache_find g (name t) = None
                ∧ last new = Some (EvCreate w (create_args t))
                ∧ last (shifted new) = Some t
                ∧ invoked new = [create_args t]).
Proof.
  revert cr tr. induction q as [|t q IH]; intros cr tr E; simpl in E.
  - injection E as <- <-. exists []. simpl. rewrite !app_nil_r.
    repeat split; try done. by left.
  - destruct (cache_find g (name t)) as [role|] eqn:Ec.
    + apply IH in E as (new & Htr & Hw & _ & Hq & Hcr & Hpu & Hd1 & Hd2 & Hpc).
      exists (EvShift w t :: EvPush w role :: new).
      rewrite Htr, Hcr, <- !app_assoc. unfold cached_roles in *. csimpl.
      rewrite Ec, Hq at 1. csimpl. rewrite Hpu.
      repeat split; try done.
      * by repeat constructor.
      * destruct Hpc as [(-> & Hq' & Hi)|(t' & i & -> & Hc' & Hl & Hs & Hi)];
          [by left|right]. exists t', i. repeat split; try done.
        -- destruct new; [done|]. done.
        -- destruct (shifted new); [done|]. done.
    + injection E as <- <-.
      exists [EvShift w t; EvCreate w (create_args t)]. unfold cached_roles.
      csimpl. rewrite Ec, <- app_assoc. repeat split; try done.
      * by repeat constructor.
      * by rewrite app_nil_r.
      * right. by exists t, (invocations (create_args t) (tr ++ [EvShift w t])).
Qed.

(** What one resumption of worker [w] adds. *)
Lemma resume_events g s w x s' :
  resume g s w x = Some s' →
  ∃ new,
    trace (frame s') = trace (frame s) ++ new
    ∧ Forall (λ e, event_worker e = w) new
    ∧ createdRoles (frame s') = createdRoles (frame s) ++ pushed new
    ∧ ∀ w', w' ≠ w → workers s' !! w' = workers s !! w'.
Proof.
  unfold resume. intros E.
  destruct (workers s !! w) as [pc|] eqn:Hw; [|done]. simpl in E.
  destruct (resume_worker g w (frame s) pc x) as [[f' pc']|] eqn:Er; [|done].
  simpl in E. injection E as <-. simpl.
  assert (Hother : ∀ w', w' ≠ w → <[w := pc']> (workers s) !! w' = workers s !! w').
  { intros w' Hne. by apply list_lookup_insert_ne. }
  destruct pc as [t i| |t| |t], x as [[role|err]|v|]; simpl in Er; try done.
  - injection Er as <- <-. eexists. simpl. repeat split; try done.
    by repeat constructor.
  - destruct (is_rate_limit err) eqn:Erl.
    + injection Er as <- <-. eexists. simpl. repeat split; try done.
      * by repeat constructor.
      * by rewrite app_nil_r.
    + injection Er as Er.
      apply while_queue_events in Er as (new & Htr & Hnew & _ & _ & Hcr & _).
      simpl in *. exists (failed_events w t err ++ new).
      rewrite Htr, Hcr, <- app_assoc, pushed_app. repeat split; try done.
      apply Forall_app. split; [by repeat constructor|done].
  - injection Er as <- <-. exists []. by rewrite !app_nil_r.
  - injection Er as Er.
    apply while_queue_events in Er as (new & Htr & Hnew & _ & _ & Hcr & _).
    by exists new.
  - injection Er as <- <-. eexists. simpl. repeat split; try done.
    + by repeat constructor.
    + by rewrite app_nil_r.
Qed.

(** A schedule that does not resume [w] leaves it where it is. *)
Lemma run_others g w s sched s' :
  wakes_for w sched = [] →
  run g s sched = Some s' →
  workers s' !! w = workers s !! w
  ∧ ∃ new, trace (frame s') = trace (frame s) ++ new
           ∧ by_worker w new = []
           ∧ createdRoles (frame s') = createdRoles (frame s) ++ pushed new.
Proof.
  revert s. induction sched as [|[w' x] sched IH]; intros s Hwk E; simpl in *.
  - injection E as <-. split; [done|]. exists []. by rewrite !app_nil_r.
  - destruct (decide (w' = w)) as [->|Hne]; [done|].
    destruct (resume g s w' x) as [s1|] eqn:E1; [|done]. simpl in E.
    destruct (resume_events _ _ _ _ _ E1) as (new1 & Htr1 & Hw1 & Hcr1 & Ho1).
    destruct (IH s1 Hwk E) as (Hpc & new & Htr & Hby & Hcr).
    split; [by rewrite Hpc, Ho1|].
    exists (new1 ++ new).
    rewrite Htr, Htr1, Hcr, Hcr1, by_worker_app, Hby, pushed_app, <- !app_assoc.
    by rewrite (by_worker_other w w').
Qed.

(** The step of a worker that waits for [create]. *)
Lemma resume_settled g s w t i r :
  workers s !! w = Some (AwaitCreate t i) →
  resume g s w (Settled r)
  = match r with
    | Fulfilled role =>
        Some (mkState
                (mkFrame (queue (frame s)) (createdRoles (frame s) ++ [role])
                   (trace (frame s) ++ created_events w t role))
                (<[w := AwaitPace]> (workers s)))
    | Rejected err =>
        if is_rate_limit err then
          Some (mkState
                  (emit (frame s)
                     [EvSettle w (create_args t) (Rejected err);
                      EvLog w (LogRateLimited (name t) (waitTime err));
                      EvDelay w Backoff (waitTime err)])
                  (<[w := AwaitBackoff t]> (workers s)))
        else
          let '(f', pc') := worker_loop g w (emit (frame s) (failed_events w t err)) in
          Some (mkState f' (<[w := pc']> (workers s)))
    end.
Proof.
  intros Hw. unfold resume. rewrite Hw. simpl.
  destruct r as [role|err]; simpl; [done|].
  destruct (is_rate_limit err); simpl; [done|].
  by destruct (worker_loop _ _ _).
Qed.

(** ** Rate limits, in words *)

Lemma prefix_spec (n h : string) :
  String.prefix n h = true ↔ ∃ post, h = n +:+ post.
Proof.
  revert h. induction n as [|c n IH]; intros h.
  - split; [by exists h | by destruct h].
  - destruct h as [|c' h]; simpl; [split; [done|by intros [? ?]]|].
    destruct (ascii_dec c c') as [->|Hne].
    + rewrite IH. split; intros [post E]; exists post.
      * by rewrite E.
      * by injection E.
    + split; [done|]. intros [post E]. by injection E.
Qed.

Lemma includes_spec (n h : string) :
  includes n h = true ↔ ∃ pre post, h = pre +:+ n +:+ post.
Proof.
  induction h as [|c h IH].
  - change (String.prefix n "" || false = true ↔ ∃ pre post, "" = pre +:+ n +:+ post).
    rewrite orb_false_r, prefix_spec. split.
    + intros [post E]. by exists "", post.
    + intros (pre & post & E). destruct pre; simpl in E; [by exists post|done].
  - change (String.prefix n (String c h) || includes n h = true
            ↔ ∃ pre post, String c h = pre +:+ n +:+ post).
    rewrite orb_true_iff, prefix_spec, IH. split.
    + intros [[post E]|(pre & post & E)].
      * by exists "", post.
      * exists (String c pre), post. simpl. by rewrite E.
    + intros (pre & post & E). destruct pre as [|c' pre]; simpl in E.
      * left. by exists post.
      * right. exists pre, post. by injection E.
Qed.

(** The test of the [catch] block in words. *)
Lemma is_rate_limit_iff (err : DiscordError) :
  is_rate_limit err = true
  ↔ code err = Some 30010%Z
    ∨ ∃ pre post, message err = Some (pre +:+ "Too Many Requests" +:+ post).
Proof.
  unfold is_rate_limit. rewrite orb_true_iff, bool_decide_eq_true.
  destruct (message err) as [m|].
  - rewrite includes_spec. split; (intros [H|(pre & post & H)]; [by left|right]).
    + exists pre, post. by rewrite H.
    + exists pre, post. congruence.
  - split; (intros [H|H]; [by left|]); [done|by destruct H as (? & ? & ?)].
Qed.

Section Retries.
Variables (g : Guild) (w : nat) (t : RoleData) (role : Role).

Local Abbreviation wakes errs :=
  (flat_map (λ err, [Settled (Rejected err); TimerFired]) errs
     ++ [Settled (Fulfilled role)]).
Local Abbreviation events errs :=
  (flat_map (retry_events w t) errs ++ created_events w t role).

Lemma retries_until_created sched :
  ∀ s s' errs,
    Forall (λ err, is_rate_limit err = true) errs →
    run g s sched = Some s' →
    (∀ i, workers s !! w = Some (AwaitCreate t i) →
          wakes_for w sched = wakes errs →
          workers s' !! w = Some AwaitPace
          ∧ ∃ new, trace (frame s') = trace (frame s) ++ new
                   ∧ by_worker w new = events errs
                   ∧ createdRoles (frame s') = createdRoles (frame s) ++ pushed new)
    ∧ (workers s !! w = Some (AwaitBackoff t) →
       wakes_for w sched = TimerFired :: wakes errs →
       workers s' !! w = Some AwaitPace
       ∧ ∃ new, trace (frame s') = trace (frame s) ++ new
                ∧ by_worker w new = EvCreate w (create_args t) :: events errs
                ∧ createdRoles (frame s') = createdRoles (frame s) ++ pushed new).
Proof.
  induction sched as [|[w' x] sched IH]; intros s s' errs Herrs E.
  { split; [intros i|]; intros _ Hwk; simpl in Hwk; [|done].
    by destruct errs. }
  simpl in E. destruct (resume g s w' x) as [s1|] eqn:E1; [|done]. simpl in E.
  destruct (decide (w' = w)) as [->|Hne].
  - (* the worker itself is resumed *)
    split.
    + intros i Hw Hwk. simpl in Hwk. rewrite decide_True in Hwk by done.
      pose proof (lookup_lt_Some _ _ _ Hw) as Hlt.
      destruct errs as [|err errs]; simpl in Hwk; injection Hwk as -> Hwk;
        rewrite (resume_settled g s w t i) in E1 by done.
      * injection E1 as <-.
        destruct (run_others g w _ _ _ Hwk E) as (Hpc & new & Htr & Hby & Hcr).
        simpl in *. rewrite list_lookup_insert_eq in Hpc by done.
        split; [done|]. exists (created_events w t role ++ new).
        rewrite Htr, Hcr, by_worker_app, Hby, pushed_app, <- !app_assoc.
        rewrite ?app_nil_r. unfold by_worker. simpl.
        rewrite !bool_decide_eq_true_2 by done. done.
      * apply Forall_cons_1 in Herrs as [Herr Herrs]. rewrite Herr in E1.
        injection E1 as <-.
        destruct (IH _ _ errs Herrs E) as [_ IH2].
        destruct IH2 as (Hpc & new & Htr & Hby & Hcr); [|done|].
        { simpl. by rewrite list_lookup_insert_eq. }
        simpl in *. split; [done|].
        exists ([EvSettle w (create_args t) (Rejected err);
                 EvLog w (LogRateLimited (name t) (waitTime err));
                 EvDelay w Backoff (waitTime err)] ++ new).
        rewrite Htr, Hcr, by_worker_app, Hby, pushed_app, <- !app_assoc.
        rewrite ?app_nil_r. unfold by_worker. simpl.
        rewrite !bool_decide_eq_true_2 by done. done.
    + intros Hw Hwk. simpl in Hwk. rewrite decide_True in Hwk by done.
      injection Hwk as -> Hwk.
      pose proof (lookup_lt_Some _ _ _ Hw) as Hlt.
      unfold resume in E1. rewrite Hw in E1. simpl in E1. injection E1 as <-.
      destruct (IH _ _ errs Herrs E) as [IH1 _].
      destruct (IH1 (invocations (create_args t) (trace (frame s))))
        as (Hpc & new & Htr & Hby & Hcr); [|done|].
      { simpl. by rewrite list_lookup_insert_eq. }
      simpl in *. split; [done|].
      exists (EvCreate w (create_args t) :: new).
      rewrite Htr, Hcr, <- !app_assoc. simpl. rewrite ?app_nil_r.
      repeat split; try done. unfold by_worker in *. simpl.
      rewrite bool_decide_eq_true_2 by done. by rewrite Hby.
  - (* another worker is resumed *)
    destruct (resume_events _ _ _ _ _ E1) as (new1 & Htr1 & Hw1 & Hcr1 & Ho1).
    destruct (IH _ _ errs Herrs E) as [IH1 IH2].
    assert (Hwk : ∀ ws, wakes_for w ((w', x) :: sched) = ws → wakes_for w sched = ws).
    { intros ws. simpl. by rewrite decide_False by done. }
    split.
    + intros i Hw Hwk'. apply Hwk in Hwk'.
      destruct (IH1 i) as (Hpc & new & Htr & Hby & Hcr); [by rewrite Ho1|done|].
      split; [done|]. exists (new1 ++ new).
      rewrite Htr, Htr1, Hcr, Hcr1, by_worker_app, pushed_app, <- !app_assoc.
      by rewrite (by_worker_other w w').
    + intros Hw Hwk'. apply Hwk in Hwk'.
      destruct IH2 as (Hpc & new & Htr & Hby & Hcr); [by rewrite Ho1|done|].
      split; [done|]. exists (new1 ++ new).
      rewrite Htr, Htr1, Hcr, Hcr1, by_worker_app, pushed_app, <- !app_assoc.
      by rewrite (by_worker_other w w').
Qed.
End Retries.

Lemma delays_retries w t errs role :
  delays Backoff (flat_map (retry_events w t) errs ++ created_events w t role)
  = waitTime <$> errs
  ∧ delays Pace (flat_map (retry_events w t) errs ++ created_events w t role)
    = [pace_ms]
  ∧ invoked (flat_map (retry_events w t) errs ++ created_events w t role)
    = replicate (length errs) (create_args t)
  ∧ pushed (flat_map (retry_events w t) errs ++ created_events w t role) = [role]
  ∧ shifted (flat_map (retry_events w t) errs ++ created_events w t role) = [].
Proof.
  induction errs as [|err errs (IH1 & IH2 & IH3 & IH4 & IH5)]; [done|].
  csimpl. unfold delays, invoked, pushed, shifted in *. csimpl.
  by rewrite IH1, IH2, IH3, IH4, IH5.
Qed.

(** C4.  Worker [w] waits for [create] on task [t]; the schedule delivers to
    it, among the resumptions of the other workers, [M] rate-limit errors
    [errs] (each with the code 30010 or with "Too Many Requests" in its
    message), each followed by the end of its sleep, and then the role.
    Then all the worker did was: for each error in turn log it, sleep, and
    invoke [create] for [t] again; at the end log the creation, push the
    role and pause.  So it slept [M] times, each time for the [retryAfter]
    of the error, or for 5000 ms where the error has none; it invoked
    [create] [M] more times, always for [t], took no other task, and pushed
    the one role once; it now pauses. *)
Theorem createRoleQueueConcurrent_retries_rate_limited
    g s w t i errs role sched s' :
  workers s !! w = Some (AwaitCreate t i) →
  Forall (λ err, code err = Some 30010%Z
                 ∨ ∃ pre post,
                     message err = Some (pre +:+ "Too Many Requests" +:+ post))
         errs →
  wakes_for w sched
  = flat_map (λ err, [Settled (Rejected err); TimerFired]) errs
      ++ [Settled (Fulfilled role)] →
  run g s sched = Some s' →
  ∃ new,
    trace (frame s') = trace (frame s) ++ new
    ∧ by_worker w new
      = flat_map (retry_events w t) errs ++ created_events w t role
    ∧ delays Backoff (by_worker w new)
      = (λ err, match retryAfter err with Some ms => ms | None => 5000%Z end) <$> errs
    ∧ length (delays Backoff (by_worker w new)) = length errs
    ∧ invoked (by_worker w new) = replicate (length errs) (create_args t)
    ∧ shifted (by_worker w new) = []
    ∧ pushed (by_worker w new) = [role]
    ∧ createdRoles (frame s') = createdRoles (frame s) ++ pushed new
    ∧ workers s' !! w = Some AwaitPace.
Proof.
  intros Hw Herrs Hwk E.
  assert (Hrl : Forall (λ err, is_rate_limit err = true) errs).
  { eapply Forall_impl; [exact Herrs|]. intros err. apply is_rate_limit_iff. }
  destruct (retries_until_created g w t role sched s s' errs Hrl E) as [H _].
  destruct (H i Hw Hwk) as (Hpc & new & Htr & Hby & Hcr).
  exists new. rewrite Hby.
  destruct (delays_retries w t errs role) as (H1 & _ & H3 & H4 & H5).
  by rewrite H1, H3, H4, H5, length_fmap.
Qed.

Lemma createRoleQueueConcurrent_retries_rate_limited_witness :
  ∃ new,
    trace (frame Demo.retried)
    = trace (frame (start Demo.guild Demo.rolesData 2)) ++ new
    ∧ by_worker 0 new
      = flat_map (retry_events 0 Demo.Blue) [Demo.slow_down; Demo.rate_limited]
          ++ created_events 0 Demo.Blue Demo.blue
    ∧ delays Backoff (by_worker 0 new) = [5000%Z; 1500%Z]
    ∧ length (delays Backoff (by_worker 0 new)) = 2
    ∧ invoked (by_worker 0 new) = replicate 2 (create_args Demo.Blue)
    ∧ shifted (by_worker 0 new) = []
    ∧ pushed (by_worker 0 new) = [Demo.blue]
    ∧ createdRoles (frame Demo.retried)
      = createdRoles (frame (start Demo.guild Demo.rolesData 2)) ++ pushed new
    ∧ workers Demo.retried !! 0 = Some AwaitPace.
Proof.
  apply (createRoleQueueConcurrent_retries_rate_limited
           Demo.guild (start Demo.guild Demo.rolesData 2) 0 Demo.Blue 0
           [Demo.slow_down; Demo.rate_limited] Demo.blue Demo.retries).
  - reflexivity.
  - apply Forall_cons. split; [by left|].
    apply Forall_cons. split; [|by apply Forall_nil].
    right. by exists "429: ", "".
  - reflexivity.
  - vm_compute. reflexivity.
Defined.


(** The step of a worker whose [create] failed for good. *)
Lemma resume_failed g s w t i err :
  workers s !! w = Some (AwaitCreate t i) →
  is_rate_limit err = false →
  ∃ s' rest,
    resume g s w (Settled (Rejected err)) = Some s'
    ∧ trace (frame s') = trace (frame s) ++ failed_events w t err ++ rest
    ∧ head rest = EvShift w <$> head (queue (frame s))
    ∧ queue (frame s) = shifted rest ++ queue (frame s')
    ∧ createdRoles (frame s')
      = createdRoles (frame s) ++ cached_roles g (shifted rest)
    ∧ delays Backoff rest = [] ∧ delays Pace rest = []
    ∧ (workers s' !! w = Some Finished ∧ queue (frame s') = [] ∧ invoked rest = []
       ∨ ∃ t' i', workers s' !! w = Some (AwaitCreate t' i')
                  ∧ last (shifted rest) = Some t'
                  ∧ invoked rest = [create_args t']).
Proof.
  intros Hw Hrl. rewrite (resume_settled g s w t i _ Hw), Hrl.
  pose proof (lookup_lt_Some _ _ _ Hw) as Hlt.
  destruct (worker_loop g w (emit (frame s) (failed_events w t err)))
    as [f' pc'] eqn:E.
  apply while_queue_events in E
    as (rest & Htr & _ & Hhd & Hq & Hcr & Hpu & Hd1 & Hd2 & Hpc).
  simpl in *. exists (mkState f' (<[w := pc']> (workers s))), rest. simpl.
  rewrite list_lookup_insert_eq by done. rewrite <- app_assoc in Htr.
  rewrite <- Hpu. repeat split; try done.
  destruct Hpc as [(-> & ? & ?)|(t' & i' & -> & _ & _ & ? & ?)]; [by left|right].
  by exists t', i'.
Qed.



(** C5.  In every state of a run: the pauses of [pace_ms] made so far are
    as many as the creations fulfilled so far.  A worker whose [create] is
    fulfilled logs, pushes the role and pauses, without touching the queue;
    while it pauses only the timer resumes it, and then it takes the head of
    the queue, if any, without a further pause.  A worker comes to pause in
    no other way; one whose [create] failed for good takes the head of the
    queue at once, as does one that found a task in the cache. *)
Theorem createRoleQueueConcurrent_paces_after_creation
    g rolesData concurrency sched s :
  run g (start g rolesData concurrency) sched = Some s →
  delays Pace (trace (frame s))
  = replicate (cnt (is_settle any_args is_ok) (trace (frame s))) pace_ms
  ∧ (∀ w t i role,
       workers s !! w = Some (AwaitCreate t i) →
       ∃ s', resume g s w (Settled (Fulfilled role)) = Some s'
             ∧ trace (frame s') = trace (frame s) ++ created_events w t role
             ∧ queue (frame s') = queue (frame s)
             ∧ workers s' !! w = Some AwaitPace)
  ∧ (∀ w,
       workers s !! w = Some AwaitPace →
       (∀ r, resume g s w (Settled r) = None)
       ∧ ∃ s' new, resume g s w TimerFired = Some s'
                   ∧ trace (frame s') = trace (frame s) ++ new
                   ∧ head new = EvShift w <$> head (queue (frame s))
                   ∧ delays Pace new = [])
  ∧ (∀ w x s',
       resume g s w x = Some s' →
       workers s' !! w = Some AwaitPace →
       ∃ t i role, workers s !! w = Some (AwaitCreate t i)
                   ∧ x = Settled (Fulfilled role))
  ∧ (∀ w t i err,
       workers s !! w = Some (AwaitCreate t i) →
       is_rate_limit err = false →
       ∃ s' rest, resume g s w (Settled (Rejected err)) = Some s'
                  ∧ trace (frame s')
                    = trace (frame s) ++ failed_events w t err ++ rest
                  ∧ head rest = EvShift w <$> head (queue (frame s))
                  ∧ delays Pace rest = []).
Proof.
  intros Hrun. split; [|split; [|split; [|split]]].
  - apply (inv_pace g rolesData). by eapply run_invariant.
  - intros w t i role Hw. rewrite (resume_settled g s w t i _ Hw).
    eexists. split; [done|]. simpl. repeat split.
    apply list_lookup_insert_eq. by eapply lookup_lt_Some.
  - intros w Hw. split.
    + intros r. unfold resume. by rewrite Hw.
    + unfold resume. rewrite Hw. simpl.
      destruct (worker_loop g w (frame s)) as [f' pc'] eqn:E.
      apply while_queue_events in E as (new & Htr & _ & Hhd & _ & _ & _ & Hd & _).
      by exists (mkState f' (<[w := pc']> (workers s))), new.
  - intros w x s' E Hw'. unfold resume in E.
    destruct (workers s !! w) as [pc|] eqn:Hw; [|done]. simpl in E.
    pose proof (lookup_lt_Some _ _ _ Hw) as Hlt.
    destruct (resume_worker g w (frame s) pc x) as [[f' pc']|] eqn:Er; [|done].
    simpl in E. injection E as <-. simpl in Hw'.
    rewrite list_lookup_insert_eq in Hw' by done. injection Hw' as ->.
    destruct pc as [t i| |t| |t], x as [[role|err]|v|]; simpl in Er; try done.
    + by exists t, i, role.
    + destruct (is_rate_limit err); [done|]. injection Er as Er.
      apply while_queue_events in Er as (? & _ & _ & _ & _ & _ & _ & _ & _ & Hpc).
      by destruct Hpc as [(? & _)|(? & ? & ? & _)].
    + injection Er as Er.
      apply while_queue_events in Er as (? & _ & _ & _ & _ & _ & _ & _ & _ & Hpc).
      by destruct Hpc as [(? & _)|(? & ? & ? & _)].
  - intros w t i err Hw Hrl.
    destruct (resume_failed g s w t i err Hw Hrl)
      as (s' & rest & Hstep & Htr & Hhd & _ & _ & _ & Hd & _).
    by exists s', rest.
Qed.

Lemma createRoleQueueConcurrent_paces_after_creation_witness :
  delays Pace (trace (frame Demo.midway))
  = replicate (cnt (is_settle any_args is_ok) (trace (frame Demo.midway))) pace_ms
  ∧ (∃ s' new, resume Demo.guild Demo.midway 0 TimerFired = Some s'
               ∧ trace (frame s') = trace (frame Demo.midway) ++ new
               ∧ head new = EvShift 0 <$> head (queue (frame Demo.midway))
               ∧ delays Pace new = []).
Proof.
  destruct (createRoleQueueConcurrent_paces_after_creation
              Demo.guild Demo.rolesData 2 (take 5 Demo.schedule) Demo.midway)
    as (Hcount & _ & Hpause & _).
  - vm_compute. reflexivity.
  - split; [exact Hcount|]. apply (Hpause 0). reflexivity.
Defined.


(* ===================================================================== *)
(** * Further properties *)
(* ===================================================================== *)

(** ** [chunkArray], chunk by chunk *)

(** X1.  For a chunk size [s > 0] no chunk of [chunkArray arr s] is empty,
    and the chunks are just as many as needed:
    [length arr ≤ length chunks * s < length arr + s]. *)
Theorem chunkArray_no_empty_chunk {A : Type} (arr : list A) (s : nat) chunks :
  0 < s →
  chunkArray arr s = Some chunks →
  Forall (λ c, c ≠ []) chunks
  ∧ length arr ≤ length chunks * s
  ∧ length chunks * s < length arr + s.
Proof.
  intros Hs E. destruct s as [|s']; [lia|]. set (s := S s') in *.
  simpl in E. injection E as <-.
  rewrite length_map, length_seq.
  pose proof (ceil_div_covers (length arr) s Hs) as Hcov.
  assert (Htight : ceil_div (length arr) s * s < length arr + s).
  { destruct (length arr) as [|n] eqn:En.
    - rewrite ceil_div_0 by done. lia.
    - pose proof (ceil_div_tight (S n) s Hs ltac:(lia)). nia. }
  split; [|done].
  apply Forall_forall. intros c Hc. apply list_elem_of_In in Hc.
  apply in_map_iff in Hc as (i & <- & Hi). apply in_seq in Hi.
  intros Hnil. apply (f_equal length) in Hnil. rewrite slice_length in Hnil.
  simpl in Hnil. nia.
Qed.

Lemma chunkArray_no_empty_chunk_witness :
  Forall (λ c, c ≠ []) [[1; 2]; [3; 4]; [5]]
  ∧ length [1; 2; 3; 4; 5] ≤ length [[1; 2]; [3; 4]; [5]] * 2
  ∧ length [[1; 2]; [3; 4]; [5]] * 2 < length [1; 2; 3; 4; 5] + 2.
Proof.
  apply (chunkArray_no_empty_chunk [1; 2; 3; 4; 5] 2); [lia | reflexivity].
Defined.

(** X2.  For a chunk size [s > 0], element [j < s] of chunk [i] is element
    [i * s + j] of the array, and neither exists when the other does not. *)
Theorem chunkArray_lookup {A : Type} (arr : list A) (s : nat) chunks i j :
  0 < s →
  chunkArray arr s = Some chunks →
  j < s →
  chunks !! i ≫= (λ c, c !! j) = arr !! (i * s + j).
Proof.
  intros Hs E Hj. destruct s as [|s']; [lia|]. set (s := S s') in *.
  simpl in E. injection E as <-.
  change (List.map ?f ?l) with (f <$> l). rewrite list_lookup_fmap.
  destruct (seq 0 (ceil_div (length arr) s) !! i) as [i'|] eqn:Ei; simpl.
  - apply lookup_seq in Ei as [-> _]. simpl. unfold slice.
    rewrite lookup_drop, lookup_take_lt by lia. done.
  - apply lookup_ge_None in Ei. rewrite length_seq in Ei. symmetry. apply lookup_ge_None.
    pose proof (ceil_div_covers (length arr) s Hs). nia.
Qed.

Lemma chunkArray_lookup_witness :
  [[1; 2]; [3; 4]; [5]] !! 1 ≫= (λ c, c !! 1) = [1; 2; 3; 4; 5] !! (1 * 2 + 1).
Proof.
  apply (chunkArray_lookup [1; 2; 3; 4; 5] 2); [lia | reflexivity | lia].
Defined.

(** ** Colours *)

Lemma hex_digit_range c d : hex_digit c = Some d → (0 ≤ d < 16)%Z.
Proof.
  unfold hex_digit. intros H.
  repeat match type of H with
         | (if ?b then _ else _) = _ => destruct b eqn:?
         end; try done; injection H as <-; lia.
Qed.

Lemma hex_prefix_digits s a :
  all_hex s = true → (0 ≤ a)%Z →
  ∃ v, hex_prefix s (Some a) = Some (a * 16 ^ Z.of_nat (String.length s) + v)%Z
       ∧ (0 ≤ v < 16 ^ Z.of_nat (String.length s))%Z.
Proof.
  revert a. induction s as [|c s IH]; intros a Hs Ha; simpl in *.
  - exists 0%Z. split; [f_equal; lia | lia].
  - apply andb_prop in Hs as [Hc Hs]. apply bool_decide_eq_true in Hc as [d Hd].
    rewrite Hd. pose proof (hex_digit_range c d Hd) as Hr.
    destruct (IH (16 * a + d)%Z Hs ltac:(lia)) as (v & E & Hv). simpl in E.
    exists (d * 16 ^ Z.of_nat (String.length s) + v)%Z.
    rewrite E. rewrite Nat2Z.inj_succ, Z.pow_succ_r by lia.
    split; [f_equal; lia | nia].
Qed.

Lemma replace_hash_none s : has_hash s = false → replace_hash s = s.
Proof.
  induction s as [|c s IH]; simpl; [done|]. intros H.
  apply orb_false_elim in H as [Hc Hs]. rewrite Hc. by rewrite IH.
Qed.

Lemma hex_digit_char c :
  is_Some (hex_digit c) →
  Ascii.eqb c "#" = false ∧ is_js_space c = false ∧ c ≠ "-"%char
  ∧ c ≠ "+"%char ∧ c ≠ "x"%char ∧ c ≠ "X"%char.
Proof.
  intros [d Hd].
  destruct c as [[] [] [] [] [] [] [] []]; vm_compute in Hd; try done;
    repeat split; done.
Qed.

Lemma all_hex_no_hash s : all_hex s = true → has_hash s = false.
Proof.
  induction s as [|c s IH]; simpl; [done|]. intros Hs.
  apply andb_prop in Hs as [Hc Hs]. apply bool_decide_eq_true in Hc.
  destruct (hex_digit_char c Hc) as (-> & _). by apply IH.
Qed.

Lemma all_hex_plain s :
  all_hex s = true → s ≠ "" →
  trim_start s = s ∧ strip_0x s = s
  ∧ ∃ c s', s = String c s' ∧ c ≠ "-"%char ∧ c ≠ "+"%char ∧ is_Some (hex_digit c).
Proof.
  intros Hs Hne. destruct s as [|c s]; [done|]. simpl in Hs.
  apply andb_prop in Hs as [Hc Hs]. apply bool_decide_eq_true in Hc.
  destruct (hex_digit_char c Hc) as (_ & Hsp & Hm & Hp & _).
  split; [by simpl; rewrite Hsp|]. split; [|by exists c, s].
  destruct s as [|c' s]; [by destruct c as [[] [] [] [] [] [] [] []]|].
  simpl in Hs. apply andb_prop in Hs as [Hc' _].
  apply bool_decide_eq_true in Hc'.
  destruct (hex_digit_char c' Hc') as (_ & _ & _ & _ & Hx & HX).
  destruct c as [[] [] [] [] [] [] [] []]; try done;
    destruct c' as [[] [] [] [] [] [] [] []]; done.
Qed.

Lemma to_number_exact (n : Z) :
  (0 ≤ n < 2 ^ 53)%Z → to_number false (Some n) = Int n.
Proof.
  intros Hn. unfold to_number.
  assert (Hr : round53 n = n).
  { unfold round53. destruct (Z.eq_dec n 0%Z) as [->|Hn0]; [done|].
    assert (Z.log2 n < 53)%Z by (apply Z.log2_lt_pow2; lia).
    by rewrite (proj2 (Z.leb_le _ _)) by lia. }
  rewrite Hr.
  assert (2 ^ 53 < 2 ^ 1024)%Z by (apply Z.pow_lt_mono_r; lia).
  rewrite (proj2 (Z.leb_gt _ _)) by lia.
  destruct (Z.eqb_spec n 0%Z) as [->|]; done.
Qed.

(** X3.  A colour written as up to 13 hexadecimal digits, with or without
    the leading ["#"], parses to the same integer, which is below [16^k] for
    [k] digits: below [2^24] for the six digits of ["#rrggbb"].  (From 14
    digits on [parseInt] rounds to a double, which may be [16^k] itself.) *)
Theorem primaryColor_of_hex_digits (s : string) :
  all_hex s = true → s ≠ "" → String.length s ≤ 13 →
  ∃ n, primaryColor (String "#" s) = Int n
       ∧ primaryColor s = Int n
       ∧ (0 ≤ n < 16 ^ Z.of_nat (String.length s))%Z.
Proof.
  intros Hs Hne Hlen.
  pose proof (all_hex_no_hash s Hs) as Hh.
  destruct (all_hex_plain s Hs Hne) as (Ht & Hx & c & s' & -> & Hm & Hp & Hc).
  destruct (hex_prefix_digits (String c s') 0 Hs ltac:(lia)) as (v & E & Hv).
  assert (Hexact : to_number false (Some v) = Int v).
  { apply to_number_exact. split; [lia|].
    eapply Z.lt_le_trans; [apply Hv|].
    change 16%Z with (2 ^ 4)%Z. rewrite <- Z.pow_mul_r by lia.
    apply Z.pow_le_mono_r; lia. }
  assert (Hparse : parseInt16 (String c s') = Int v).
  { unfold parseInt16. rewrite Ht.
    assert (Hgo : hex_prefix (strip_0x (String c s')) None = Some v).
    { rewrite Hx. simpl in *. destruct Hc as [d Hd]. rewrite Hd in *.
      simpl in *. by rewrite E. }
    destruct c as [[] [] [] [] [] [] [] []]; try done;
      cbv beta match; by rewrite Hgo. }
  exists v. unfold primaryColor. rewrite (replace_hash_none _ Hh).
  simpl replace_hash. done.
Qed.

Lemma primaryColor_of_hex_digits_witness :
  ∃ n, primaryColor "#ff69b4" = Int n
       ∧ primaryColor "ff69b4" = Int n
       ∧ (0 ≤ n < 16 ^ Z.of_nat (String.length "ff69b4"))%Z.
Proof.
  apply (primaryColor_of_hex_digits "ff69b4");
    [reflexivity | discriminate | vm_compute; lia].
Defined.

(** X4.  [color.replace("#", "")] drops the first ["#"] only, wherever it
    stands, and leaves a colour without ["#"] as it is. *)
Theorem replace_hash_first (a b : string) :
  has_hash a = false →
  replace_hash (a +:+ String "#" b) = a +:+ b ∧ replace_hash a = a.
Proof.
  intros Ha. split; [|by apply replace_hash_none].
  induction a as [|c a IH]; simpl in *; [done|].
  apply orb_false_elim in Ha as [Hc Ha]. rewrite Hc. by rewrite IH.
Qed.

Lemma replace_hash_first_witness :
  replace_hash ("ff" +:+ String "#" "00#1") = "ff" +:+ "00#1"
  ∧ replace_hash "ff" = "ff".
Proof. apply (replace_hash_first "ff" "00#1"). reflexivity. Defined.

(** ** Rate limits *)

(** X5.  The [catch] block takes an error for a rate limit exactly when its
    code is the number 30010 or its message contains "Too Many Requests"
    somewhere (in this spelling); and then sleeps [retryAfter], or 5000 when
    there is none. *)
Theorem is_rate_limit_spec (err : DiscordError) :
  (is_rate_limit err = true
   ↔ code err = Some 30010%Z
     ∨ ∃ pre post, message err = Some (pre +:+ "Too Many Requests" +:+ post))
  ∧ (waitTime err = 5000%Z ↔ retryAfter err = None ∨ retryAfter err = Some 5000%Z).
Proof.
  split.
  - unfold is_rate_limit. rewrite orb_true_iff, bool_decide_eq_true.
    destruct (message err) as [m|].
    + rewrite includes_spec. split; (intros [H|(pre & post & H)]; [by left|right]).
      * exists pre, post. by rewrite H.
      * exists pre, post. congruence.
    + split; (intros [H|H]; [by left|]); [done|by destruct H as (? & ? & ?)].
  - unfold waitTime. destruct (retryAfter err) as [ms|]; simpl.
    + split; [intros ->; by right | by intros [|[= ->]]].
    + split; [by left|done].
Qed.

(** ** [messageCreate]: the words of a command *)

Lemma append_cons c (s t : string) : String c s +:+ t = String c (s +:+ t).
Proof. reflexivity. Qed.

Lemma split_space_cons (s : string) : ∃ piece rest, split_space s = piece :: rest.
Proof.
  destruct s as [|c s]; simpl; [by eexists _, _|].
  destruct (Ascii.eqb c " "); [by eexists _, _|].
  destruct (split_space s); by eexists _, _.
Qed.

Lemma join_space_cons piece piece' rest :
  join_space (piece :: piece' :: rest)
  = piece +:+ String " " (join_space (piece' :: rest)).
Proof. reflexivity. Qed.

Lemma split_space_word (w rest : string) :
  count_char " " w = 0 →
  split_space (w +:+ String " " rest) = w :: split_space rest.
Proof.
  induction w as [|c w IH]; [done|]. rewrite append_cons. simpl. intros Hw.
  destruct (Ascii.eqb c " "); [done|]. by rewrite IH.
Qed.

Lemma split_space_last (w : string) : count_char " " w = 0 → split_space w = [w].
Proof.
  induction w as [|c w IH]; simpl; [done|]. intros Hw.
  destruct (Ascii.eqb c " "); [done|]. by rewrite IH.
Qed.

Lemma split_space_join_space pieces :
  pieces ≠ [] →
  Forall (λ piece, count_char " " piece = 0) pieces →
  split_space (join_space pieces) = pieces.
Proof.
  intros Hne Hall. induction Hall as [|piece rest Hp Hrest IH]; [done|].
  destruct rest as [|piece' rest]; [by apply split_space_last|].
  rewrite join_space_cons, split_space_word by done. f_equal. by apply IH.
Qed.

(** X6.  [content.split(" ")] cuts at every single space: joining the
    pieces with spaces gives the content back, no piece contains a space,
    and there is one piece more than there are spaces (so two spaces in a
    row give an empty piece). *)
Theorem split_space_round_trip (s : string) :
  join_space (split_space s) = s
  ∧ Forall (λ piece, count_char " " piece = 0) (split_space s)
  ∧ length (split_space s) = S (count_char " " s).
Proof.
  induction s as [|c s (IHj & IHp & IHl)]; simpl; [by repeat constructor|].
  destruct (split_space_cons s) as (piece & rest & E). rewrite E in *.
  destruct (Ascii.eqb_spec c " ") as [->|Hc].
  - split; [|split].
    + rewrite join_space_cons, IHj. done.
    + by constructor.
    + simpl in *. lia.
  - apply Forall_cons in IHp as [Hp Hrest]. split; [|split].
    + destruct rest as [|piece' rest]; simpl in *; by rewrite <- IHj.
    + constructor; [|done]. simpl.
      by destruct (Ascii.eqb_spec c " ").
    + simpl in *. lia.
Qed.

Lemma prefix_app (p w rest : string) :
  String.prefix p w = true → String.prefix p (w +:+ rest) = true.
Proof.
  rewrite !prefix_spec. intros [post ->]. exists (post +:+ rest).
  induction p as [|c p IH]; [done|]. rewrite !append_cons. by f_equal.
Qed.

(** X7.  A message of space-free words [w cmd more...] whose first word
    begins with "!epic-roles" (it may go on, as in "!epic-roles-x") is
    dispatched on its second word alone, by an administrator only: "add",
    "remove", "dropdown" with the third word as channel id, and nothing for
    any other word, the empty one of a doubled space included. *)
Theorem dispatch_second_word (w cmd : string) (more : list string) (admin : bool) :
  Forall (λ piece, count_char " " piece = 0) (w :: cmd :: more) →
  String.prefix "!epic-roles" w = true →
  dispatch (join_space (w :: cmd :: more)) admin
  = if negb admin then Denied
    else if bool_decide (cmd = "add") then RunAdd
    else if bool_decide (cmd = "remove") then RunRemove
    else if bool_decide (cmd = "dropdown") then RunDropdown (head more)
    else RunNothing.
Proof.
  intros Hall Hw. unfold dispatch.
  rewrite split_space_join_space by done.
  rewrite join_space_cons, (prefix_app _ _ _ Hw). simpl.
  destruct admin; simpl; [|done]. by destruct more.
Qed.

Lemma dispatch_second_word_witness :
  dispatch "!epic-roles-x dropdown 42 now" true = RunDropdown (Some "42")
  ∧ dispatch "!epic-roles  add" true = RunNothing.
Proof.
  split.
  - apply (dispatch_second_word "!epic-roles-x" "dropdown" ["42"; "now"] true);
      [by repeat constructor | reflexivity].
  - apply (dispatch_second_word "!epic-roles" "" ["add"] true);
      [by repeat constructor | reflexivity].
Defined.

(** ** [!epic-roles remove] *)

(** X8.  Whatever the deletions do to the cache, the names reported as
    removed are names of [rolesData], in its order, each one the name of the
    role [delete()] was called on; the reply counts them, and says that
    nothing was found when there is none. *)
Theorem remove_command_reports (deleted : Guild → Role → Guild) g rolesData :
  removedRoles deleted g rolesData `sublist_of` (name <$> rolesData)
  ∧ Forall (λ '(n, role), role_name role = n) (fst (remove_loop deleted g rolesData))
  ∧ match remove_command deleted g rolesData with
    | NothingRemoved => removedRoles deleted g rolesData = []
    | RemovedCount n =>
        n = length (removedRoles deleted g rolesData) ∧ 1 ≤ n ≤ length rolesData
    end.
Proof.
  assert (Hsub : ∀ g, removedRoles deleted g rolesData `sublist_of` (name <$> rolesData)).
  { unfold removedRoles. induction rolesData as [|t rest IH]; intros g0; simpl; [done|].
    destruct (cache_find g0 (name t)) as [role|].
    - specialize (IH (deleted g0 role)).
      destruct (remove_loop deleted (deleted g0 role) rest) as [done g'].
      simpl in *. by apply sublist_skip.
    - by apply sublist_cons. }
  assert (Hpairs : ∀ g, Forall (λ '(n, role), role_name role = n)
                          (fst (remove_loop deleted g rolesData))).
  { clear. induction rolesData as [|t rest IH]; intros g; simpl; [done|].
    destruct (cache_find g (name t)) as [role|] eqn:E; [|apply IH].
    specialize (IH (deleted g role)).
    destruct (remove_loop deleted (deleted g role) rest) as [done g']. simpl.
    constructor; [by apply cache_find_Some in E as [_ ?]|done]. }
  split; [apply Hsub|]. split; [apply Hpairs|].
  unfold remove_command. specialize (Hsub g).
  apply sublist_length in Hsub. rewrite length_fmap in Hsub.
  destruct (removedRoles deleted g rolesData); [done|]. simpl in *. lia.
Qed.

(** X9.  When no deletion changes the cache (every [delete()] was refused,
    say, which [.catch(() => null)] swallows), every name found in the cache
    is still reported as removed: the count is the number of roles the cache
    holds for [rolesData]. *)
Theorem remove_command_counts_cache_hits (deleted : Guild → Role → Guild) g rolesData :
  (∀ g role, deleted g role = g) →
  removedRoles deleted g rolesData
  = name <$> List.filter (λ t, negb (not_cached g t)) rolesData
  ∧ length (removedRoles deleted g rolesData) = length (cached_roles g rolesData).
Proof.
  intros Hdel.
  assert (E : removedRoles deleted g rolesData
              = name <$> List.filter (λ t, negb (not_cached g t)) rolesData).
  { unfold removedRoles, not_cached.
    induction rolesData as [|t rest IH]; simpl; [done|].
    destruct (cache_find g (name t)) as [role|]; simpl; [|done].
    rewrite Hdel. destruct (remove_loop deleted g rest) as [done g'].
    csimpl in *. by rewrite IH. }
  split; [done|]. rewrite E, length_fmap. unfold cached_roles, not_cached.
  clear E. induction rolesData as [|t rest IH]; csimpl; [done|].
  destruct (cache_find g (name t)); simpl; lia.
Qed.

Lemma remove_command_counts_cache_hits_witness :
  removedRoles (λ g _, g) Demo.guild Demo.rolesData
  = name <$> List.filter (λ t, negb (not_cached Demo.guild t)) Demo.rolesData
  ∧ length (removedRoles (λ g _, g) Demo.guild Demo.rolesData)
    = length (cached_roles Demo.guild Demo.rolesData).
Proof.
  apply (remove_command_counts_cache_hits (λ g _, g)). reflexivity.
Defined.

(** X10.  When a deletion takes the role's id out of the cache and adds
    nothing, [delete()] is called on roles of the cache the command started
    with, and never twice on the same id. *)
Theorem remove_loop_deletes_once (deleted : Guild → Role → Guild) g rolesData :
  (∀ g role x, x ∈ roles_cache (deleted g role) →
               x ∈ roles_cache g ∧ role_id x ≠ role_id role) →
  Forall (λ '(_, role), role ∈ roles_cache g) (fst (remove_loop deleted g rolesData))
  ∧ NoDup (role_id ∘ snd <$> fst (remove_loop deleted g rolesData)).
Proof.
  intros Hdel. revert g.
  induction rolesData as [|t rest IH]; intros g; simpl; [split; [done|constructor]|].
  destruct (cache_find g (name t)) as [role|] eqn:E; [|apply IH].
  destruct (IH (deleted g role)) as [Hin Hnd].
  destruct (remove_loop deleted (deleted g role) rest) as [done g']. simpl in *.
  apply cache_find_Some in E as [Hrole _]. split.
  - constructor; [done|]. eapply Forall_impl; [exact Hin|].
    intros [n x] Hx. by apply Hdel in Hx as [? _].
  - constructor; [|done]. intros Hdup.
    apply list_elem_of_fmap in Hdup as ([n x] & Hid & Hx). simpl in Hid.
    rewrite Forall_forall in Hin. apply Hin in Hx. apply Hdel in Hx as [_ Hx].
    congruence.
Qed.

Lemma remove_loop_deletes_once_witness :
  let deleted := λ g role,
    mkGuild (List.filter (λ x, negb (bool_decide (role_id x = role_id role)))
               (roles_cache g)) in
  Forall (λ '(_, role), role ∈ roles_cache Demo.guild)
    (fst (remove_loop deleted Demo.guild Demo.rolesData))
  ∧ NoDup (role_id ∘ snd <$> fst (remove_loop deleted Demo.guild Demo.rolesData)).
Proof.
  intros deleted. apply (remove_loop_deletes_once deleted).
  intros g role x Hx. unfold deleted in Hx. simpl in Hx.
  apply list_elem_of_In, filter_In in Hx as [Hx Hid].
  apply negb_true_iff, bool_decide_eq_false in Hid.
  split; [by apply list_elem_of_In|done].
Defined.

(** ** [!epic-roles dropdown] *)


Lemma dropdown_messages_options g rolesData msgs :
  dropdown_messages g rolesData = Some msgs →
  ∃ chunks,
    chunkArray (enrichedRoles g rolesData) 25 = Some chunks
    ∧ msgs = imap menu_message chunks
    ∧ menu_options <$> msgs = fmap menu_option <$> chunks.
Proof.
  unfold dropdown_messages. intros E.
  destruct (chunkArray (enrichedRoles g rolesData) 25) as [chunks|] eqn:Ec; [|done].
  simpl in E. injection E as <-. exists chunks. split; [done|]. split; [done|].
  apply list_eq. intros i. rewrite !list_lookup_fmap, list_lookup_imap.
  by destruct (chunks !! i).
Qed.

Lemma send_menus_spec builds sends msgs :
  fst (send_menus builds sends msgs) `prefix_of` msgs
  ∧ (snd (send_menus builds sends msgs) = true
     ↔ Forall (λ m, builds (menu_options m) = true ∧ sends m = true) msgs)
  ∧ (snd (send_menus builds sends msgs) = true
     → fst (send_menus builds sends msgs) = msgs).
Proof.
  induction msgs as [|m msgs (IH1 & IH2 & IH3)]; simpl.
  - split; [done|]. split; [|done]. split; [by constructor|done].
  - destruct (builds (menu_options m)) eqn:Eb, (sends m) eqn:Es; simpl;
      try (split; [apply prefix_nil|]; split; [|done];
           split; [done|]; intros H; apply Forall_cons in H as [[? ?] _]; congruence).
    destruct (send_menus builds sends msgs) as [sent ok]. simpl in *.
    split; [by apply prefix_cons|]. split.
    + rewrite IH2. split; [by constructor|]. by intros H; apply Forall_cons in H as [_ ?].
    + intros H. by rewrite IH3.
Qed.


(** X12.  The custom ids of the menus sent are pairwise distinct, and the
    [interactionCreate] handler takes every one of them for a colour menu. *)
Theorem dropdown_customIds g rolesData msgs :
  dropdown_messages g rolesData = Some msgs →
  NoDup (menu_customId <$> msgs)
  ∧ Forall (λ m, String.prefix "colorRoles_" (menu_customId m) = true) msgs.
Proof.
  intros E. destruct (dropdown_messages_options _ _ _ E) as (chunks & _ & -> & _).
  split.
  - apply NoDup_alt. intros i j x Hi Hj.
    rewrite list_lookup_fmap, list_lookup_imap in Hi, Hj.
    destruct (chunks !! i), (chunks !! j); try done. simpl in *.
    injection Hi as <-. injection Hj as Hj.
    repeat (injection Hj as Hj). by apply pretty_nat_inj in Hj.
  - apply Forall_forall. intros m Hm.
    apply list_elem_of_lookup in Hm as [i Hm]. rewrite list_lookup_imap in Hm.
    destruct (chunks !! i); [|done]. injection Hm as <-.
    apply prefix_spec. by exists (pretty i).
Qed.

Lemma dropdown_customIds_witness :
  let msgs := default [] (dropdown_messages Demo.guild Demo.rolesData) in
  NoDup (menu_customId <$> msgs)
  ∧ Forall (λ m, String.prefix "colorRoles_" (menu_customId m) = true) msgs.
Proof.
  apply (dropdown_customIds Demo.guild Demo.rolesData). reflexivity.
Defined.





(** ** The [interactionCreate] handler, whatever its outcome *)

(** X14.  However a run of the handler ends, in either revision, also when
    a request is refused half way or the reply fails, the member loses
    nothing but colour roles and gains nothing but the first selected value;
    an interaction that is not handled changes nothing. *)
Theorem interactionCreate_touches_colors_only accepts replies logChannel g rolesData i
    (held held' : gset string) c :
  interactionCreate accepts replies logChannel g rolesData i held = (held', c)
  ∨ interactionCreate_rev0 accepts replies g rolesData i held = (held', c) →
  held ∖ list_to_set (colorRoleIds g rolesData) ⊆ held'
  ∧ held' ⊆ held ∪ list_to_set (take 1 (values i))
  ∧ (c = NotHandled → held' = held).
Proof.
  unfold interactionCreate, interactionCreate_rev0, log_and_reply, reply. intros E.
  destruct (isStringSelectMenu i); simpl in E;
    [|destruct E as [E|E]; injection E as <- <-; set_solver].
  destruct (String.prefix "colorRoles_" (customId i)); simpl in E;
    [|destruct E as [E|E]; injection E as <- <-; set_solver].
  destruct (remove_existing accepts (colorRoleIds g rolesData) held)
    as [held1 ok] eqn:Er.
  apply remove_existing_between in Er as [Hlow Hup].
  destruct ok; [|destruct E as [E|E]; injection E as <- <-; set_solver].
  destruct (values i) as [|v vs], (log_throws logChannel), replies; simpl;
    try (destruct E as [E|E]; injection E as <- <-; set_solver);
    destruct (cache_get g v), (accepts v);
    destruct E as [E|E]; injection E as <- <-; set_solver.
Qed.

Lemma interactionCreate_touches_colors_only_witness :
  let g := mkGuild [mkRole "11" "Red"; mkRole "12" "Blue"] in
  let rolesData := [mkRoleData "Red" "#ff0000" None; mkRoleData "Blue" "#0000ff" None] in
  let held : gset string := {[ "7"; "11"; "12" ]} in
  let held' : gset string := {[ "7"; "12" ]} in
  held ∖ list_to_set (colorRoleIds g rolesData) ⊆ held'
  ∧ held' ⊆ held ∪ list_to_set (take 1 ["11"])
  ∧ (Thrown = NotHandled → held' = held).
Proof.
  apply (interactionCreate_touches_colors_only
           (λ x, bool_decide (x = "11")) true LogSends
           (mkGuild [mkRole "11" "Red"; mkRole "12" "Blue"])
           [mkRoleData "Red" "#ff0000" None; mkRoleData "Blue" "#0000ff" None]
           (mkInteraction true "colorRoles_0" ["11"])
           {[ "7"; "11"; "12" ]} {[ "7"; "12" ]} Thrown).
  left. vm_compute. reflexivity.
Defined.

(** X15.  The two revisions of the handler compared.  They leave the same
    roles except when the selected role is not in the guild's cache while
    Discord accepts the request to add it: both throw then, the earlier
    revision after it has added the role, [bot.js] before.  They end the
    same way except when the log channel of [bot.js] has no [send]: then
    [bot.js] throws where the earlier revision replies.  And when [bot.js]
    throws with a role gained, the role was in the cache and accepted, and
    it was the log channel or the reply that failed. *)
Theorem interactionCreate_revisions accepts replies logChannel g rolesData i
    (held : gset string) :
  let now := interactionCreate accepts replies logChannel g rolesData i held in
  let before := interactionCreate_rev0 accepts replies g rolesData i held in
  (fst now = fst before
   ∨ ∃ v, head (values i) = Some v ∧ accepts v = true ∧ cache_get g v = None
          ∧ snd now = Thrown ∧ snd before = Thrown
          ∧ fst before = fst now ∪ {[v]})
  ∧ (snd now = snd before
     ∨ logChannel = LogCannotSend ∧ replies = true
       ∧ snd now = Thrown ∧ snd before ≠ Thrown)
  ∧ (snd now = Thrown →
     fst now ⊆ held
     ∨ ∃ v role, head (values i) = Some v ∧ cache_get g v = Some role
                 ∧ accepts v = true
                 ∧ (logChannel = LogCannotSend ∨ replies = false)).
Proof.
  unfold interactionCreate, interactionCreate_rev0, log_and_reply, reply.
  destruct (remove_existing accepts (colorRoleIds g rolesData) held)
    as [held1 ok] eqn:Er.
  apply remove_existing_between in Er as [_ Hup].
  destruct (isStringSelectMenu i), (String.prefix "colorRoles_" (customId i)),
    ok; simpl; try (split_and!; [by left | by left | first [done | by left]]).
  destruct (values i) as [|v vs]; simpl.
  - destruct logChannel, replies; simpl; split_and!;
      first [by left | by right | by intros _; left | done].
  - destruct (cache_get g v) as [role|] eqn:Ec, (accepts v) eqn:Ea; simpl.
    + destruct logChannel, replies; simpl; split_and!;
        first [by left | by right | done | intros _; right; exists v, role; by auto].
    + split_and!; first [by left | by intros _; left].
    + split_and!; [right; by exists v | by left | by intros _; left].
    + split_and!; first [by left | by intros _; left].
Qed.

(** X16.  A run of the handler that replied (or did not handle the
    interaction) is idempotent: the same interaction handled once more ends
    the same way and leaves the roles as they are; in either revision, but
    for [bot.js] after the earlier revision only where its log channel does
    not throw. *)
Theorem interactionCreate_idempotent accepts replies logChannel g rolesData i
    (held held' : gset string) c :
  interactionCreate accepts replies logChannel g rolesData i held = (held', c)
  ∨ interactionCreate_rev0 accepts replies g rolesData i held = (held', c) →
  c ≠ Thrown →
  interactionCreate_rev0 accepts replies g rolesData i held' = (held', c)
  ∧ (interactionCreate accepts replies logChannel g rolesData i held = (held', c)
     ∨ log_throws logChannel = false →
     interactionCreate accepts replies logChannel g rolesData i held' = (held', c)).
Proof.
  intros E Hc.
  unfold interactionCreate, interactionCreate_rev0, log_and_reply, reply in *.
  destruct (isStringSelectMenu i); simpl in *;
    [|by destruct E as [E|E]; injection E as <- <-].
  destruct (String.prefix "colorRoles_" (customId i)); simpl in *;
    [|by destruct E as [E|E]; injection E as <- <-].
  destruct (remove_existing accepts (colorRoleIds g rolesData) held)
    as [held1 ok] eqn:Er.
  destruct ok; [|destruct E as [E|E]; congruence].
  apply remove_existing_through in Er. subst held1.
  destruct (values i) as [|v vs].
  - assert (held' = held ∖ list_to_set (colorRoleIds g rolesData)
            ∧ c = RepliedRemoved ∧ replies = true) as (-> & -> & ->).
    { destruct (log_throws logChannel), replies;
        destruct E as [E|E]; by injection E as <- <-. }
    rewrite remove_existing_accepted by set_solver.
    split; [f_equal; set_solver|]. intros [E'|E'].
    + destruct (log_throws logChannel); [done|]. f_equal. set_solver.
    + rewrite E'. f_equal. set_solver.
  - destruct (cache_get g v) as [role|] eqn:Ec, (accepts v) eqn:Ea;
      try (destruct E as [E|E]; congruence).
    assert (held' = held ∖ list_to_set (colorRoleIds g rolesData) ∪ {[v]}
            ∧ c = RepliedGiven (role_name role) ∧ replies = true) as (-> & -> & ->).
    { destruct (log_throws logChannel), replies;
        destruct E as [E|E]; by injection E as <- <-. }
    rewrite remove_existing_accepted.
    + split; [f_equal; set_solver|]. intros [E'|E'].
      * destruct (log_throws logChannel); [done|]. f_equal. set_solver.
      * rewrite E'. f_equal. set_solver.
    + intros x Hx Hh. assert (x = v) as -> by set_solver. done.
Qed.

Lemma interactionCreate_idempotent_witness :
  let accepts := λ _ : string, true in
  let g := mkGuild [mkRole "11" "Red"; mkRole "12" "Blue"] in
  let rolesData := [mkRoleData "Red" "#ff0000" None; mkRoleData "Blue" "#0000ff" None] in
  let i := mkInteraction true "colorRoles_0" ["12"] in
  interactionCreate_rev0 accepts true g rolesData i {[ "7"; "12" ]}
  = ({[ "7"; "12" ]}, RepliedGiven "Blue")
  ∧ interactionCreate accepts true LogSends g rolesData i {[ "7"; "12" ]}
    = ({[ "7"; "12" ]}, RepliedGiven "Blue").
Proof.
  intros accepts g rolesData i.
  destruct (interactionCreate_idempotent accepts true LogSends g rolesData i
              {[ "7"; "11" ]} {[ "7"; "12" ]} (RepliedGiven "Blue"))
    as [Hbefore Hnow].
  - left. vm_compute. reflexivity.
  - discriminate.
  - split; [exact Hbefore|]. apply Hnow. by right.
Defined.

(** ** [createRoleQueueConcurrent]: more on its runs *)

Lemma wsum_le_length wt ws : (∀ pc, wt pc ≤ 1) → wsum wt ws ≤ length ws.
Proof.
  intros Hwt. unfold wsum. induction ws as [|pc ws IH]; simpl; [lia|].
  specialize (Hwt pc). lia.
Qed.

Lemma cnt_settled A tr :
  cnt (is_settle A every_result) tr
  = cnt (is_settle A is_rl) tr + cnt (is_settle A is_final) tr.
Proof.
  unfold cnt. induction tr as [|e tr IH]; [done|]. simpl.
  destruct e as [? ?|? ?|w a r|? ?|? ? ?|? ?]; simpl; try done.
  unfold is_final, every_result in *.
  destruct (A a), (is_rl r); simpl; lia.
Qed.

(** X17.  In every state of a run the invocations of [create] not yet
    settled are those of the workers suspended at [await create], one each
    (a settlement being one the worker took, or one that made its [catch]
    block raise): at most [concurrency] requests are in flight at any
    moment. *)
Theorem createRoleQueueConcurrent_in_flight g rolesData concurrency sched s :
  run g (start g rolesData concurrency) sched = Some s →
  length (invoked (trace (frame s)))
  = cnt (is_settle any_args every_result) (trace (frame s))
    + wsum (threw_on any_args) (workers s)
    + wsum (awaiting_create any_args) (workers s)
  ∧ wsum (awaiting_create any_args) (workers s) ≤ concurrency.
Proof.
  intros Hrun.
  pose proof (run_invariant g rolesData concurrency sched s Hrun) as Hinv.
  pose proof (run_concurrency g rolesData concurrency sched s Hrun) as Hlen.
  pose proof (inv_invoked _ _ _ Hinv any_args) as H1.
  pose proof (inv_claimed _ _ _ Hinv any_args) as H2.
  rewrite cnt_create in H1. rewrite filter_true_length in H1.
  rewrite cnt_settled. split; [lia|].
  rewrite <- Hlen. apply wsum_le_length. intros [t i| |t| |t]; simpl; lia.
Qed.

Lemma createRoleQueueConcurrent_in_flight_witness :
  length (invoked (trace (frame Demo.early)))
  = cnt (is_settle any_args every_result) (trace (frame Demo.early))
    + wsum (threw_on any_args) (workers Demo.early)
    + wsum (awaiting_create any_args) (workers Demo.early)
  ∧ wsum (awaiting_create any_args) (workers Demo.early) ≤ 2.
Proof.
  apply (createRoleQueueConcurrent_in_flight Demo.guild Demo.rolesData 2
           (take 1 Demo.schedule)).
  reflexivity.
Defined.

Lemma spawn_drained g k f ws :
  queue f = [] → spawn g k f ws = mkState f (ws ++ replicate k Finished).
Proof.
  revert ws. induction k as [|k IH]; intros ws Hq; simpl.
  - by rewrite app_nil_r.
  - unfold worker_loop. rewrite Hq. simpl.
    replace (mkFrame [] (createdRoles f) (trace f)) with f
      by (destruct f; simpl in *; by subst).
    rewrite IH by done. by rewrite <- app_assoc.
Qed.

Lemma finished_replicate k : forallb is_finished (replicate k Finished) = true.
Proof. by induction k. Qed.

Lemma while_queue_cached g w q cr tr :
  Forall (λ t, cache_find g (name t) ≠ None) q →
  ∃ new, while_queue g w q cr tr = (mkFrame [] (cr ++ cached_roles g q) (tr ++ new), Finished)
         ∧ invoked new = [] ∧ length (cached_roles g q) = length q.
Proof.
  intros Hq. revert cr tr. induction Hq as [|t q Ht Hq IH]; intros cr tr; simpl.
  - exists []. by rewrite !app_nil_r.
  - destruct (cache_find g (name t)) as [role|] eqn:E; [|done].
    destruct (IH (cr ++ [role]) (tr ++ [EvShift w t; EvPush w role]))
      as (new & -> & Hnew & Hlen).
    exists ([EvShift w t; EvPush w role] ++ new).
    unfold cached_roles in *. csimpl.
    rewrite <- !app_assoc. simpl. split; [done|]. split; [done|]. lia.
Qed.

(** X18.  When the cache holds a role for every task, the call with at
    least one worker resolves without suspending, hence without a single
    invocation of [create], to the cached roles in the order of
    [rolesData]. *)
Theorem createRoleQueueConcurrent_all_cached g rolesData concurrency :
  Forall (λ t, cache_find g (name t) ≠ None) rolesData →
  1 ≤ concurrency →
  createRoleQueueConcurrent g rolesData concurrency [] = Some (cached_roles g rolesData)
  ∧ invoked (trace (frame (start g rolesData concurrency))) = []
  ∧ length (cached_roles g rolesData) = length rolesData.
Proof.
  intros Hall Hk. destruct concurrency as [|k]; [lia|].
  destruct (while_queue_cached g 0 rolesData [] [] Hall) as (new & E & Hnew & Hlen).
  unfold createRoleQueueConcurrent, start. simpl. unfold worker_loop. simpl.
  rewrite E, spawn_drained by done. simpl.
  unfold resolved. simpl.
  by rewrite finished_replicate.
Qed.

Lemma createRoleQueueConcurrent_all_cached_witness :
  createRoleQueueConcurrent Demo.guild [Demo.Red; Demo.Red] 3 []
  = Some (cached_roles Demo.guild [Demo.Red; Demo.Red])
  ∧ invoked (trace (frame (start Demo.guild [Demo.Red; Demo.Red] 3))) = []
  ∧ length (cached_roles Demo.guild [Demo.Red; Demo.Red]) = length [Demo.Red; Demo.Red].
Proof.
  apply (createRoleQueueConcurrent_all_cached Demo.guild [Demo.Red; Demo.Red] 3);
    [by repeat constructor | lia].
Defined.

Lemma while_queue_queue g w q cr tr f' pc' :
  while_queue g w q cr tr = (f', pc') → queue f' `suffix_of` q.
Proof.
  intros E. destruct (while_queue_events g w q cr tr f' pc' E)
    as (new & _ & _ & _ & Hq & _).
  by exists (shifted new).
Qed.

Lemma resume_queue g s w x s' :
  resume g s w x = Some s' → queue (frame s') `suffix_of` queue (frame s).
Proof.
  unfold resume. intros E.
  destruct (workers s !! w) as [pc|]; [|done]. simpl in E.
  destruct (resume_worker g w (frame s) pc x) as [[f' pc']|] eqn:Er; [|done].
  simpl in E. injection E as <-. simpl.
  unfold resume_worker in Er.
  destruct pc as [t i| |t| |t], x as [[role|err]|v|]; try done.
  - by injection Er as <- _.
  - destruct (is_rate_limit err).
    + by injection Er as <- _.
    + injection Er as Er. by apply while_queue_queue in Er.
  - by injection Er as <- _.
  - injection Er as Er. by apply while_queue_queue in Er.
  - by injection Er as <- _.
Qed.

(** X20.  A run only ever appends to [createdRoles] and to the history and
    only ever takes tasks off the front of the queue: whatever is in
    [createdRoles] at some moment starts the array the call resolves to. *)
Theorem run_monotone g s sched s' :
  run g s sched = Some s' →
  createdRoles (frame s) `prefix_of` createdRoles (frame s')
  ∧ trace (frame s) `prefix_of` trace (frame s')
  ∧ queue (frame s') `suffix_of` queue (frame s).
Proof.
  revert s. induction sched as [|[w x] sched IH]; intros s Hrun; simpl in Hrun.
  - by injection Hrun as <-.
  - destruct (resume g s w x) as [s1|] eqn:E; [|done]. simpl in Hrun.
    destruct (IH s1 Hrun) as (Hc & Ht & Hq).
    destruct (resume_events g s w x s1 E) as (new & Htr & _ & Hcr & _).
    apply resume_queue in E. split; [|split].
    + etrans; [|exact Hc]. rewrite Hcr. by apply prefix_app_r.
    + etrans; [|exact Ht]. rewrite Htr. by apply prefix_app_r.
    + by etrans.
Qed.

Lemma run_monotone_witness :
  createdRoles (frame Demo.early) `prefix_of` createdRoles (frame Demo.final)
  ∧ trace (frame Demo.early) `prefix_of` trace (frame Demo.final)
  ∧ queue (frame Demo.final) `suffix_of` queue (frame Demo.early).
Proof.
  apply (run_monotone Demo.guild Demo.early (drop 1 Demo.schedule)). reflexivity.
Defined.

Lemma waits_asked_app tr1 tr2 :
  waits_asked (tr1 ++ tr2) = waits_asked tr1 ++ waits_asked tr2.
Proof. apply omap_app. Qed.

Lemma logged_app tr1 tr2 : logged (tr1 ++ tr2) = logged tr1 ++ logged tr2.
Proof. apply omap_app. Qed.

Lemma settled_logs_app tr1 tr2 :
  settled_logs (tr1 ++ tr2) = settled_logs tr1 ++ settled_logs tr2.
Proof. apply omap_app. Qed.

Lemma effect_accounted g ok odd s s' :
  effect g ok odd s s' → accounted s → accounted s'.
Proof.
  intros Heff [Hd Hl].
  destruct Heff as [s|s w t q r Hw Hq Hc|s w t q Hw Hq Hc|s w Hw Hq
                   |s w t i role Hw Hok|s w t i err Hw Hok Hrl
                   |s w t i err Hw Hok Hrl|s w t Hw|s w t i Hw _];
    unfold accounted; simpl;
    rewrite ?delays_app, ?waits_asked_app, ?logged_app, ?settled_logs_app, ?Hd, ?Hl;
    csimpl; rewrite ?Hrl; csimpl;
    try (unfold is_rate_limit in Hrl; rewrite Hrl); unfold waitTime;
    try destruct (retryAfter err); csimpl; rewrite ?app_nil_r; done.
Qed.

Lemma effects_accounted g ok odd s s' :
  rtc (effect g ok odd) s s' → accounted s → accounted s'.
Proof. induction 1; eauto using effect_accounted. Qed.

Lemma run_accounted g rolesData concurrency sched s :
  run g (start g rolesData concurrency) sched = Some s → accounted s.
Proof.
  intros Hrun.
  apply (effects_accounted g any_outcome True (mkState (mkFrame rolesData [] []) [])); [|done].
  etrans; [apply start_effects|]. by eapply run_effects.
Qed.

(** X21.  In every state of a run the backoff sleeps are, in order and in
    length, exactly what the rate limits received asked for ([retryAfter],
    or 5000 without it): no rate limit goes without its sleep and no other
    sleep is taken at that place. *)
Theorem createRoleQueueConcurrent_backoff_as_asked g rolesData concurrency sched s :
  run g (start g rolesData concurrency) sched = Some s →
  delays Backoff (trace (frame s)) = waits_asked (trace (frame s)).
Proof. intros Hrun. by apply run_accounted in Hrun as [? _]. Qed.

Lemma createRoleQueueConcurrent_backoff_as_asked_witness :
  delays Backoff (trace (frame Demo.retried)) = waits_asked (trace (frame Demo.retried)).
Proof.
  apply (createRoleQueueConcurrent_backoff_as_asked Demo.guild Demo.rolesData 2
           Demo.retries).
  reflexivity.
Defined.

(** In the sample run: 5000 ms for the rate limit without a suggestion,
    then the 1500 ms suggested. *)
Example waits_asked_retried :
  waits_asked (trace (frame Demo.retried)) = [5000%Z; 1500%Z].
Proof. reflexivity. Qed.

(** X22.  In every state of a run the lines logged are, in order, one per
    settlement of [create] and of its kind: "Created role" for a fulfilled
    one, "Rate limited" with the wait for a rate limit, "Failed to create"
    with the error otherwise, each with the name of the role asked for. *)
Theorem createRoleQueueConcurrent_logs_settlements g rolesData concurrency sched s :
  run g (start g rolesData concurrency) sched = Some s →
  logged (trace (frame s)) = settled_logs (trace (frame s)).
Proof. intros Hrun. by apply run_accounted in Hrun as [_ ?]. Qed.

Lemma createRoleQueueConcurrent_logs_settlements_witness :
  logged (trace (frame Demo.final)) = settled_logs (trace (frame Demo.final)).
Proof.
  apply (createRoleQueueConcurrent_logs_settlements Demo.guild Demo.rolesData 2
           Demo.schedule).
  reflexivity.
Defined.

Lemma invoked_app tr1 tr2 : invoked (tr1 ++ tr2) = invoked tr1 ++ invoked tr2.
Proof. apply omap_app. Qed.

Lemma while_queue_first g w q cr tr f' pc' :
  while_queue g w q cr tr = (f', pc') →
  invoked (trace f')
  = invoked tr ++ (create_args <$> take 1 (List.filter (not_cached g) q))
  ∧ List.filter (not_cached g) (queue f') = drop 1 (List.filter (not_cached g) q).
Proof.
  revert cr tr. induction q as [|t q IH]; intros cr tr E; simpl in E.
  - injection E as <- <-. simpl. by rewrite app_nil_r.
  - simpl.
    assert (Hnc : not_cached g t
                  = match cache_find g (name t) with Some _ => false | None => true end)
      by done.
    destruct (cache_find g (name t)) as [role|]; rewrite Hnc.
    + apply IH in E as [-> ->]. rewrite invoked_app. csimpl.
      by rewrite app_nil_r.
    + unfold try_create in E. injection E as <- <-. simpl.
      rewrite !invoked_app. csimpl. by rewrite ?app_nil_r, ?take_0, ?drop_0.
Qed.

Lemma spawn_first g k f ws :
  invoked (trace (frame (spawn g k f ws)))
  = invoked (trace f)
    ++ (create_args <$> take k (List.filter (not_cached g) (queue f))).
Proof.
  revert f ws. induction k as [|k IH]; intros f ws; simpl.
  - by rewrite app_nil_r.
  - destruct (worker_loop g (length ws) f) as [f' pc'] eqn:E.
    apply while_queue_first in E as [Hinv Hq].
    rewrite IH, Hinv, Hq, <- app_assoc, <- fmap_app. do 2 f_equal.
    destruct (List.filter (not_cached g) (queue f)); simpl;
      by rewrite ?take_nil, ?take_0, ?drop_0.
Qed.

(** X23.  Before anything settles the workers have invoked [create] for
    the first [concurrency] tasks that are not in the cache, in the order of
    [rolesData], and for nothing else: the opening burst is
    [min concurrency u] requests for [u] such tasks. *)
Theorem createRoleQueueConcurrent_opening_burst g rolesData concurrency :
  invoked (trace (frame (start g rolesData concurrency)))
  = create_args <$> take concurrency (List.filter (not_cached g) rolesData)
  ∧ length (invoked (trace (frame (start g rolesData concurrency))))
    = min concurrency (length (List.filter (not_cached g) rolesData)).
Proof.
  unfold start. rewrite spawn_first. simpl.
  split; [done|]. by rewrite length_fmap, length_take.
Qed.

(** ** Edge cases *)

Lemma enriched_as_cached g rolesData :
  length (enrichedRoles g rolesData) = length (cached_roles g rolesData).
Proof.
  unfold enrichedRoles, cached_roles.
  induction rolesData as [|t rest IH]; csimpl; [done|].
  destruct (cache_find g (name t)); simpl; lia.
Qed.

(** X24.  With a channel id that is not empty and that fetches a channel
    the dropdown command either reports success or throws.  It reports
    success exactly when every menu is built, every message taken and the
    reply too; it has sent [ceil(n / 25)] messages then, for the [n] roles
    of [rolesData] found in the cache.  When the cache holds none of them
    nothing is sent, and nothing but the reply stands between the command
    and its report of success. *)
Theorem dropdown_command_sends fetches builds sends replies g rolesData (c : string) :
  c ≠ "" → fetches c = true →
  let all := default [] (dropdown_messages g rolesData) in
  let result := dropdown_command fetches builds sends replies g rolesData (Some c) in
  (snd result = MenusCreated c ∨ snd result = DropdownThrown)
  ∧ (snd result = MenusCreated c
     ↔ replies = true
       ∧ Forall (λ m, builds (menu_options m) = true ∧ sends m = true) all)
  ∧ (snd result = MenusCreated c →
     length (fst result) = ceil_div (length (cached_roles g rolesData)) 25)
  ∧ (cached_roles g rolesData = [] →
     fst result = [] ∧ (replies = true → snd result = MenusCreated c)).
Proof.
  intros Hc Hf all result. unfold result, all, dropdown_command, answer.
  assert (truthy_string (Some c) = Some c) as -> by by destruct c.
  rewrite Hf. unfold dropdown_messages.
  destruct (chunkArray (enrichedRoles g rolesData) 25) as [chunks|] eqn:Ec; [|done].
  simpl.
  assert (Hlen : length (imap menu_message chunks)
                 = ceil_div (length (cached_roles g rolesData)) 25).
  { rewrite length_imap. unfold chunkArray in Ec. injection Ec as <-.
    by rewrite length_map, length_seq, enriched_as_cached. }
  destruct (send_menus_spec builds sends (imap menu_message chunks))
    as (Hpre & Hok & Hall).
  destruct (send_menus builds sends (imap menu_message chunks)) as [sent ok].
  simpl in *. split_and!.
  - destruct ok, replies; auto.
  - rewrite <- Hok. destruct ok, replies; simpl; split; try done;
      by intros [? ?].
  - destruct ok, replies; try done. intros _. by rewrite Hall.
  - intros Hnone. rewrite Hnone in Hlen. apply nil_length_inv in Hlen.
    rewrite Hlen in *. apply prefix_nil_inv in Hpre as ->.
    assert (ok = true) as -> by (apply Hok; constructor).
    split; [done|]. by intros ->.
Qed.

Lemma dropdown_command_sends_witness :
  let builds := λ os : list MenuOption, bool_decide (length os ≤ 25) in
  let result :=
    dropdown_command (λ _, true) builds (λ _, true) true
      Demo.guild Demo.rolesData (Some "42") in
  (snd result = MenusCreated "42" ∨ snd result = DropdownThrown)
  ∧ (snd result = MenusCreated "42"
     ↔ true = true
       ∧ Forall (λ m, builds (menu_options m) = true ∧ (λ _, true) m = true)
           (default [] (dropdown_messages Demo.guild Demo.rolesData)))
  ∧ (snd result = MenusCreated "42" →
     length (fst result)
     = ceil_div (length (cached_roles Demo.guild Demo.rolesData)) 25)
  ∧ (cached_roles Demo.guild Demo.rolesData = [] →
     fst result = [] ∧ (true = true → snd result = MenusCreated "42")).
Proof.
  intros builds.
  apply (dropdown_command_sends (λ _, true) builds (λ _, true) true
           Demo.guild Demo.rolesData "42");
    [discriminate | reflexivity].
Defined.

(** A role with an empty colour gives an option with an empty description,
    which [addOptions] refuses: nothing is sent and the command throws. *)
Example dropdown_command_refused :
  dropdown_command (λ _, true)
    (forallb (λ o, negb (bool_decide (opt_description o = ""))))
    (λ _, true) true
    Demo.guild [mkRoleData "Red" "" None] (Some "42")
  = ([], DropdownThrown).
Proof. reflexivity. Qed.

Lemma spawn_keeps g k f ws : ws `prefix_of` workers (spawn g k f ws).
Proof.
  revert f ws. induction k as [|k IH]; intros f ws; simpl; [done|].
  destruct (worker_loop g (length ws) f) as [f' pc'].
  etrans; [|apply IH]. by apply prefix_app_r.
Qed.

Lemma while_queue_finished g w q cr tr f' :
  while_queue g w q cr tr = (f', Finished) →
  Forall (λ t, cache_find g (name t) ≠ None) q.
Proof.
  revert cr tr. induction q as [|t q IH]; intros cr tr E; simpl in E; [done|].
  destruct (cache_find g (name t)) as [role|] eqn:Ec; [|done].
  constructor; [by rewrite Ec|by eapply IH].
Qed.

(** X25.  The call resolves without ever suspending only if there is no
    worker, and then to the empty array whatever is in [rolesData], or if
    the cache holds a role for every task. *)
Theorem createRoleQueueConcurrent_at_once g rolesData concurrency roles :
  createRoleQueueConcurrent g rolesData concurrency [] = Some roles →
  concurrency = 0 ∧ roles = []
  ∨ Forall (λ t, cache_find g (name t) ≠ None) rolesData.
Proof.
  unfold createRoleQueueConcurrent. simpl. intros Hres.
  destruct concurrency as [|k].
  - left. split; [done|]. by injection Hres as <-.
  - right. apply resolved_Some in Hres as [_ Hfin].
    unfold start in Hfin. simpl in Hfin.
    destruct (worker_loop g 0 (mkFrame rolesData [] [])) as [f' pc'] eqn:E.
    destruct (spawn_keeps g k f' [pc']) as [more Hws].
    rewrite Hws in Hfin. simpl in Hfin. apply andb_prop in Hfin as [Hpc _].
    destruct pc'; try done. by eapply while_queue_finished.
Qed.

Lemma createRoleQueueConcurrent_at_once_witness :
  0 = 0 ∧ @nil Role = []
  ∨ Forall (λ t, cache_find Demo.guild (name t) ≠ None) Demo.rolesData.
Proof.
  apply (createRoleQueueConcurrent_at_once Demo.guild Demo.rolesData 0 []).
  reflexivity.
Defined.

Lemma replace_hash_tail s c rest :
  has_hash s = false → c ≠ "#"%char →
  replace_hash (s +:+ String c rest) = s +:+ String c (replace_hash rest).
Proof.
  intros Hs Hc. induction s as [|a s IH].
  - change (replace_hash (String c rest) = String c (replace_hash rest)). simpl.
    by destruct (Ascii.eqb_spec c "#").
  - rewrite !append_cons. simpl in *.
    apply orb_false_elim in Hs as [Ha Hs]. rewrite Ha. by rewrite IH.
Qed.

Lemma hex_prefix_tail s c rest acc :
  hex_digit c = None →
  hex_prefix (s +:+ String c rest) acc = hex_prefix s acc.
Proof.
  intros Hc. revert acc. induction s as [|a s IH]; intros acc.
  - change (hex_prefix (String c rest) acc = acc). simpl. by rewrite Hc.
  - rewrite append_cons. simpl. destruct (hex_digit a); [apply IH|done].
Qed.

(** X26.  [parseInt] reads the leading hexadecimal digits and ignores
    everything from the first other character on, so that a colour like
    "ff00zz" or "blue" still gives a number (255 * 256 and 11).  The
    characters excepted are "#", which [replace] takes out first, and "x" or
    "X", which after a single "0" start the number anew. *)
Theorem primaryColor_ignores_tail (s : string) (c : ascii) (rest : string) :
  all_hex s = true → s ≠ "" →
  hex_digit c = None → c ≠ "#"%char → c ≠ "x"%char → c ≠ "X"%char →
  primaryColor (s +:+ String c rest) = primaryColor s.
Proof.
  intros Hs Hne Hc Hhash Hx HX.
  pose proof (all_hex_no_hash s Hs) as Hh.
  destruct (all_hex_plain s Hs Hne) as (Ht & Hstrip & a & s' & -> & Hm & Hp & Ha).
  unfold primaryColor.
  rewrite replace_hash_tail, (replace_hash_none (String a s')) by done.
  set (tail := replace_hash rest).
  destruct (hex_digit_char a Ha) as (_ & Hsp & _).
  assert (Hstrip' : strip_0x (String a s' +:+ String c tail)
                    = strip_0x (String a s') +:+ String c tail).
  { rewrite Hstrip. rewrite append_cons.
    destruct s' as [|b s'].
    - change ("" +:+ String c tail) with (String c tail).
      destruct a as [[] [] [] [] [] [] [] []]; try done;
        destruct c as [[] [] [] [] [] [] [] []]; done.
    - rewrite append_cons. simpl in Hs.
      apply andb_prop in Hs as [_ Hs]. apply andb_prop in Hs as [Hb _].
      apply bool_decide_eq_true in Hb.
      destruct (hex_digit_char b Hb) as (_ & _ & _ & _ & Hbx & HbX).
      destruct a as [[] [] [] [] [] [] [] []]; try done;
        destruct b as [[] [] [] [] [] [] [] []]; done. }
  assert (Hgo : hex_prefix (strip_0x (String a s' +:+ String c tail)) None
                = hex_prefix (strip_0x (String a s')) None).
  { rewrite Hstrip'. by apply hex_prefix_tail. }
  unfold parseInt16. rewrite append_cons in *. simpl trim_start. rewrite Hsp.
  destruct a as [[] [] [] [] [] [] [] []]; try done;
    cbv beta match; by rewrite Hgo.
Qed.

Lemma primaryColor_ignores_tail_witness :
  primaryColor ("b" +:+ String "l" "ue") = primaryColor "b".
Proof.
  apply (primaryColor_ignores_tail "b" "l" "ue");
    try reflexivity; discriminate.
Defined.
